(** * Mortgage amortization engine of [mortgage_app.py]

    A shallow embedding of [calculate_monthly_payment],
    [create_amortization_schedule] and the summary statistics computed by the
    main script, followed by the properties of the amortization schedule.

    The Python functions are duck-typed over their numeric arguments.  The
    embedding keeps that: the code is written once over a class [Number] of
    arithmetic operations, and is then read in two instances:

    - [Exact.Q_Number]: exact rational arithmetic, in which the algebraic
      properties of the schedule are proved;
    - [Binary64.float_Number]: IEEE 754 binary64, the arithmetic Python
      actually runs, in which the code is evaluated on concrete inputs. *)

From Stdlib Require Import String Ascii NArith DecimalN.
From Stdlib Require Import ZArith QArith Qpower Qfield List Bool Lia Lqa.
From Stdlib Require Import Floats.
Import ListNotations.

Set Warnings "-inexact-float".

(** ** Exceptions and the error monad *)

(** [ZeroDivisionError] and [OverflowError] are the exceptions Python's
    arithmetic can raise in this program.  [InvalidInput] is the error
    category of the design's taxonomy: no path of the program raises it, and
    it is part of the type so that the design's requirement on it can be
    stated. *)
Inductive exn : Set :=
| ZeroDivisionError
| OverflowError
| InvalidInput.

Inductive result (A : Type) : Type :=
| Ok (a : A)
| Raise (e : exn).

Arguments Ok {A} a.
Arguments Raise {A} e.

Definition bind {A B : Type} (c : result A) (k : A -> result B) : result B :=
  match c with
  | Ok a => k a
  | Raise e => Raise e
  end.

Notation "x <- c ;; k" := (bind c (fun x => k))
  (at level 61, c at next level, right associativity).

(** ** Python's [range] *)

Definition range (start stop : Z) : list Z :=
  map (fun i => (start + Z.of_nat i)%Z) (seq 0 (Z.to_nat (stop - start))).

(** ** The arithmetic the code relies on *)

Class Number (F : Type) : Type := {
  of_int : Z -> F;                 (* an [int] operand promoted to [F] *)
  add : F -> F -> F;               (* [a + b] *)
  sub : F -> F -> F;               (* [a - b] *)
  mul : F -> F -> F;               (* [a * b] *)
  truediv : F -> F -> result F;    (* [a / b], raising on a zero divisor *)
  pow : F -> Z -> result F;        (* [a ** n] with an [int] exponent *)
  is_zero : F -> bool;             (* [a == 0] *)
  gt : F -> F -> bool              (* [a > b] *)
}.

Declare Scope num_scope.
Delimit Scope num_scope with num.
Infix "+" := add : num_scope.
Infix "-" := sub : num_scope.
Infix "*" := mul : num_scope.
Infix "/" := truediv : num_scope.
Infix "**" := pow (at level 30, right associativity) : num_scope.

(** ** The program *)

Section Program.
Context {F : Type} `{Number F}.
Local Open Scope num_scope.

(** [max(0, x)]: Python keeps the first argument unless a later one is
    strictly greater. *)
Definition max0 (x : F) : F :=
  if gt x (of_int 0) then x else of_int 0.

(** [annual_rate / 100 / 12], computed by both functions. *)
Definition monthly_rate_of (annual_rate : F) : result F :=
  t <- annual_rate / of_int 100 ;;
  t / of_int 12.

Definition calculate_monthly_payment
    (principal annual_rate : F) (years : Z) : result F :=
  monthly_rate <- monthly_rate_of annual_rate ;;
  let num_payments := (years * 12)%Z in
  if is_zero monthly_rate then
    principal / of_int num_payments
  else
    growth <- (of_int 1 + monthly_rate) ** num_payments ;;
    let numerator := principal * (monthly_rate * growth) in
    growth' <- (of_int 1 + monthly_rate) ** num_payments ;;
    numerator / (growth' - of_int 1).

(** The local variables the loop of [create_amortization_schedule]
    updates: the running balance and the five column lists. *)
Record locals : Type := mkLocals {
  remaining_balance : F;
  payment_numbers : list Z;
  payment_amounts : list F;
  principal_payments : list F;
  interest_payments : list F;
  remaining_balances : list F
}.

Definition loop_init (principal : F) : locals :=
  {| remaining_balance := principal;
     payment_numbers := [];
     payment_amounts := [];
     principal_payments := [];
     interest_payments := [];
     remaining_balances := [] |}.

(** One iteration of the [for payment_num in range(1, num_payments + 1)]
    loop. *)
Definition loop_body (monthly_payment monthly_rate : F)
    (st : locals) (payment_num : Z) : locals :=
  let interest_payment := remaining_balance st * monthly_rate in
  let principal_payment := monthly_payment - interest_payment in
  let remaining_balance' := remaining_balance st - principal_payment in
  {| remaining_balance := remaining_balance';
     payment_numbers := payment_numbers st ++ [payment_num];
     payment_amounts := payment_amounts st ++ [monthly_payment];
     principal_payments := principal_payments st ++ [principal_payment];
     interest_payments := interest_payments st ++ [interest_payment];
     remaining_balances := remaining_balances st ++ [max0 remaining_balance'] |}.

(** The [pd.DataFrame] returned: one list per column. *)
Record DataFrame : Type := mkDataFrame {
  Payment_Number : list Z;
  Payment_Amount : list F;
  Principal_Payment : list F;
  Interest_Payment : list F;
  Remaining_Balance : list F
}.

Definition frame_of (st : locals) : DataFrame :=
  {| Payment_Number := payment_numbers st;
     Payment_Amount := payment_amounts st;
     Principal_Payment := principal_payments st;
     Interest_Payment := interest_payments st;
     Remaining_Balance := remaining_balances st |}.

Definition run_loop (monthly_payment monthly_rate principal : F)
    (num_payments : Z) : locals :=
  fold_left (loop_body monthly_payment monthly_rate)
            (range 1 (num_payments + 1)) (loop_init principal).

Definition create_amortization_schedule
    (principal annual_rate : F) (years : Z) : result DataFrame :=
  monthly_payment <- calculate_monthly_payment principal annual_rate years ;;
  monthly_rate <- monthly_rate_of annual_rate ;;
  let num_payments := (years * 12)%Z in
  Ok (frame_of (run_loop monthly_payment monthly_rate principal num_payments)).

(** The summary statistics of the main script:
    [total_payments = monthly_payment * loan_years * 12] and
    [total_interest = total_payments - loan_principal]. *)
Definition total_payments (monthly_payment : F) (loan_years : Z) : F :=
  monthly_payment * of_int loan_years * of_int 12.

Definition total_interest (total_payments loan_principal : F) : F :=
  total_payments - loan_principal.

(** The running balance after [k] iterations of the loop, before any
    clamping: the value the variable [remaining_balance] holds. *)
Definition balance_after (monthly_payment monthly_rate principal : F)
    (k : nat) : F :=
  remaining_balance
    (run_loop monthly_payment monthly_rate principal (Z.of_nat k)).

End Program.

Arguments locals F : clear implicits.
Arguments DataFrame F : clear implicits.

(** ** The main script: summary statistics and the views of the schedule *)

Section MainScript.
Context {F : Type} `{Number F}.
Local Open Scope num_scope.

(** The values behind the four metrics of the page (Monthly Payment, Total
    Paid, Total Interest, Interest/Principal) and the schedule they are
    computed with. *)
Record metrics : Type := mkMetrics {
  Monthly_Payment : F;
  schedule : DataFrame F;
  Total_Paid : F;
  Total_Interest : F;
  Interest_Principal : F
}.

(** The main calculation, in the order the script runs it; the last
    division is [total_interest / loan_principal]. *)
Definition main_calculation
    (loan_principal annual_rate : F) (loan_years : Z) : result metrics :=
  monthly_payment <-
    calculate_monthly_payment loan_principal annual_rate loan_years ;;
  schedule <-
    create_amortization_schedule loan_principal annual_rate loan_years ;;
  let total_payments := total_payments monthly_payment loan_years in
  let total_interest := total_interest total_payments loan_principal in
  ratio <- total_interest / loan_principal ;;
  let interest_percentage := ratio * of_int 100 in
  Ok {| Monthly_Payment := monthly_payment;
        schedule := schedule;
        Total_Paid := total_payments;
        Total_Interest := total_interest;
        Interest_Principal := interest_percentage |}.

End MainScript.

Arguments metrics F : clear implicits.

(** [DataFrame.head(n)], [DataFrame.tail(n)] and the slice [[::step]] (for a
    positive step), on one column. *)
Definition head {A : Type} (n : nat) (l : list A) : list A := firstn n l.

Definition tail {A : Type} (n : nat) (l : list A) : list A :=
  skipn (length l - n) l.

Fixpoint slice_from {A : Type} (step wait : nat) (l : list A) : list A :=
  match l with
  | [] => []
  | x :: rest =>
      match wait with
      | O => x :: slice_from step (step - 1) rest
      | S w => slice_from step w rest
      end
  end.

Definition slice_step {A : Type} (step : nat) (l : list A) : list A :=
  slice_from step 0 l.

(** A selection of rows, applied to every column of a frame. *)
Definition select_rows {C : Type} (sel : forall A : Type, list A -> list A)
    (df : DataFrame C) : DataFrame C :=
  {| Payment_Number := sel Z (Payment_Number df);
     Payment_Amount := sel C (Payment_Amount df);
     Principal_Payment := sel C (Principal_Payment df);
     Interest_Payment := sel C (Interest_Payment df);
     Remaining_Balance := sel C (Remaining_Balance df) |}.

(** The copy of the schedule that is displayed: the four money columns
    formatted by [fmt] (the script's [lambda x: f"${x:,.2f}"]), the payment
    numbers kept. *)
Definition display_schedule {F : Type} (fmt : F -> String.string)
    (schedule : DataFrame F) : DataFrame String.string :=
  {| Payment_Number := Payment_Number schedule;
     Payment_Amount := map fmt (Payment_Amount schedule);
     Principal_Payment := map fmt (Principal_Payment schedule);
     Interest_Payment := map fmt (Interest_Payment schedule);
     Remaining_Balance := map fmt (Remaining_Balance schedule) |}.

(** The rows shown for the radio button's choice: the three named views,
    and the full schedule for anything else. *)
Definition displayed_rows {C : Type} (view_option : String.string)
    (display_schedule : DataFrame C) : DataFrame C :=
  if String.eqb view_option "First 12 Months"%string then
    select_rows (fun A => head 12) display_schedule
  else if String.eqb view_option "Last 12 Months"%string then
    select_rows (fun A => tail 12) display_schedule
  else if String.eqb view_option "Every 12th Payment"%string then
    select_rows (fun A => slice_step 12) display_schedule
  else
    display_schedule.

(** ** Exact rational arithmetic *)

Module Exact.

Definition Qgt_bool (a b : Q) : bool :=
  match a ?= b with
  | Gt => true
  | _ => false
  end.

(** Every result is kept in lowest terms, as Python's [Fraction] does;
    [Qred q == q], so this changes the representation and not the value. *)
Definition Qadd (a b : Q) : Q := Qred (a + b).
Definition Qsub (a b : Q) : Q := Qred (a - b).
Definition Qmul (a b : Q) : Q := Qred (a * b).

Definition Qtruediv (a b : Q) : result Q :=
  if Qeq_bool b 0 then Raise ZeroDivisionError else Ok (Qred (a / b)).

(** A zero base cannot be raised to a negative power. *)
Definition Qpow (a : Q) (n : Z) : result Q :=
  if Qeq_bool a 0 && (n <? 0)%Z then Raise ZeroDivisionError
  else Ok (Qred (a ^ n)).

#[export] Instance Q_Number : Number Q := {
  of_int := inject_Z;
  add := Qadd;
  sub := Qsub;
  mul := Qmul;
  truediv := Qtruediv;
  pow := Qpow;
  is_zero := fun a => Qeq_bool a 0;
  gt := Qgt_bool
}.

End Exact.

(** ** IEEE 754 binary64 *)

Module Binary64.

(** An [int] converted to the nearest [float]. *)
Definition float_of_int (z : Z) : float :=
  SF2Prim (binary_normalize prec emax z 0 false).

Definition float_truediv (a b : float) : result float :=
  if PrimFloat.eqb b 0 then Raise ZeroDivisionError
  else Ok (PrimFloat.div a b).

(** The C library's [pow] for a finite positive base and a non-zero
    integral exponent.  Its last bits are not specified; it is modelled by
    multiplying the power out, which agrees with it wherever the products
    are exact. *)
Fixpoint libm_pow_pos (a : float) (n : nat) : float :=
  match n with
  | O => 1%float
  | S k => PrimFloat.mul a (libm_pow_pos a k)
  end.

Definition libm_pow (a : float) (n : Z) : float :=
  let p := libm_pow_pos a (Z.abs_nat n) in
  if (n <? 0)%Z then PrimFloat.div 1 p else p.

(** [float.__pow__] with an [int] exponent.  The interpreter settles the
    special cases itself before it calls the C library: a zero exponent
    and a base of [1.0] give [1.0], a zero base with a negative exponent
    raises [ZeroDivisionError]; a result out of range raises
    [OverflowError]. *)
Definition float_pow (a : float) (n : Z) : result float :=
  if (n =? 0)%Z then Ok 1%float
  else if PrimFloat.eqb a 0 && (n <? 0)%Z then Raise ZeroDivisionError
  else if PrimFloat.eqb a 1 then Ok 1%float
  else
    let p := libm_pow a n in
    if is_infinity p && is_finite a then Raise OverflowError else Ok p.

#[export] Instance float_Number : Number float := {
  of_int := float_of_int;
  add := PrimFloat.add;
  sub := PrimFloat.sub;
  mul := PrimFloat.mul;
  truediv := float_truediv;
  pow := float_pow;
  is_zero := fun a => PrimFloat.eqb a 0;
  gt := fun a b => PrimFloat.ltb b a
}.

End Binary64.

(** ** Display formatting: [f"${x:,.2f}"] *)

(** The decimal digits of a non-negative integer, most significant first,
    as characters. *)
Fixpoint chars_of_uint (d : Decimal.uint) : list ascii :=
  match d with
  | Decimal.Nil => []
  | Decimal.D0 d => "0"%char :: chars_of_uint d
  | Decimal.D1 d => "1"%char :: chars_of_uint d
  | Decimal.D2 d => "2"%char :: chars_of_uint d
  | Decimal.D3 d => "3"%char :: chars_of_uint d
  | Decimal.D4 d => "4"%char :: chars_of_uint d
  | Decimal.D5 d => "5"%char :: chars_of_uint d
  | Decimal.D6 d => "6"%char :: chars_of_uint d
  | Decimal.D7 d => "7"%char :: chars_of_uint d
  | Decimal.D8 d => "8"%char :: chars_of_uint d
  | Decimal.D9 d => "9"%char :: chars_of_uint d
  end.

Definition digit (k : N) : ascii := ascii_of_N (48 + k).

(** The thousands separators of the [,] option: a comma before every
    group of three digits, counted from the right. *)
Fixpoint group_rev (count : nat) (l : list ascii) : list ascii :=
  match l with
  | [] => []
  | c :: rest =>
      if Nat.eqb count 3 then ","%char :: c :: group_rev 1 rest
      else c :: group_rev (S count) rest
  end.

Definition group (l : list ascii) : list ascii := rev (group_rev 0 (rev l)).

(** [num / den] rounded to the nearest integer, ties to even. *)
Definition round_half_even (num den : N) : N :=
  let q := (num / den)%N in
  let r := (num mod den)%N in
  match (2 * r ?= den)%N with
  | Lt => q
  | Gt => (q + 1)%N
  | Eq => if N.even q then q else (q + 1)%N
  end.

(** The number of hundredths the [.2f] conversion shows for the finite
    value [m * 2 ^ e]: the exact value, correctly rounded. *)
Definition cents_of_finite (m : positive) (e : Z) : N :=
  match e with
  | Z0 => (Npos m * 100)%N
  | Zpos p => (Npos m * 2 ^ Npos p * 100)%N
  | Zneg p => round_half_even (Npos m * 100) (2 ^ Npos p)
  end.

Definition sign_chars (negative : bool) : list ascii :=
  if negative then ["-"%char] else [].

Definition fixed_2 (negative : bool) (cents : N) : list ascii :=
  sign_chars negative
  ++ group (chars_of_uint (N.to_uint (cents / 100)))
  ++ ["."%char; digit (cents mod 100 / 10); digit (cents mod 10)].

(** [format(x, ",.2f")] of a [float], by the cases of its value: a signed
    zero, an infinity, a NaN or a finite number. *)
Definition format_2f (x : spec_float) : list ascii :=
  match x with
  | S754_zero s => fixed_2 s 0
  | S754_infinity s => sign_chars s ++ ["i"; "n"; "f"]%char
  | S754_nan => ["n"; "a"; "n"]%char
  | S754_finite s m e => fixed_2 s (cents_of_finite m e)
  end.

(** The script's [lambda x: f"${x:,.2f}"]. *)
Definition format_currency (x : float) : string :=
  string_of_list_ascii ("$"%char :: format_2f (Prim2SF x)).


(** Reading a displayed amount back: the sign and the number of
    hundredths. *)
Definition ungroup (l : list ascii) : list ascii :=
  filter (fun c => negb (Ascii.eqb c ","%char)) l.

Fixpoint uint_of_chars (l : list ascii) : option Decimal.uint :=
  match l with
  | [] => Some Decimal.Nil
  | c :: rest =>
      match uint_of_chars rest with
      | None => None
      | Some d =>
          if Ascii.eqb c "0" then Some (Decimal.D0 d)
          else if Ascii.eqb c "1" then Some (Decimal.D1 d)
          else if Ascii.eqb c "2" then Some (Decimal.D2 d)
          else if Ascii.eqb c "3" then Some (Decimal.D3 d)
          else if Ascii.eqb c "4" then Some (Decimal.D4 d)
          else if Ascii.eqb c "5" then Some (Decimal.D5 d)
          else if Ascii.eqb c "6" then Some (Decimal.D6 d)
          else if Ascii.eqb c "7" then Some (Decimal.D7 d)
          else if Ascii.eqb c "8" then Some (Decimal.D8 d)
          else if Ascii.eqb c "9" then Some (Decimal.D9 d)
          else None
      end
  end.

Definition N_of_chars (l : list ascii) : option N :=
  option_map N.of_uint (uint_of_chars l).

Definition split_sign (l : list ascii) : bool * list ascii :=
  match l with
  | c :: digits => if Ascii.eqb c "-" then (true, digits) else (false, l)
  | [] => (false, [])
  end.

Definition parse_currency (s : string) : option (bool * N) :=
  match list_ascii_of_string s with
  | "$"%char :: body =>
      match rev body with
      | d2 :: d1 :: "."%char :: int_rev =>
          let signed := split_sign (ungroup (rev int_rev)) in
          match N_of_chars (snd signed), N_of_chars [d1; d2] with
          | Some i, Some f => Some (fst signed, (i * 100 + f)%N)
          | _, _ => None
          end
      | _ => None
      end
  | _ => None
  end.

(** ** Derived notions the properties are stated with *)

Import Exact Binary64.

(** The sum of a column. *)
Definition Qsum (l : list Q) : Q := fold_right Qplus 0%Q l.

(** The number of periods, [years * 12], as a count. *)
Definition num_periods (years : Z) : nat := Z.to_nat (years * 12).

(** The data model's recurrence for the balance, read off the principal
    portions of a schedule and never clamped:
    remainingBalance(0) = principal and
    remainingBalance(n) = remainingBalance(n-1) - principalPortion(n). *)
Fixpoint spec_remaining_balance {F : Type} `{Number F}
    (principal : F) (portions : list F) (n : nat) : F :=
  match n with
  | O => principal
  | S k => sub (spec_remaining_balance principal portions k)
               (nth k portions (of_int 0))
  end.

(** The present value of [n] payments of one unit, one per period, at the
    growth factor [q] per period: [1/q + 1/q^2 + ... + 1/q^n]. *)
Fixpoint annuity_factor (q : Q) (n : nat) : Q :=
  match n with
  | O => 0%Q
  | S k => ((annuity_factor q k + 1) / q)%Q
  end.

(** * Properties *)

(** ** Facts about the loop that hold in every arithmetic *)

Lemma range_succ (n : nat) :
  range 1 (Z.of_nat (S n) + 1)%Z
  = range 1 (Z.of_nat n + 1)%Z ++ [Z.of_nat (S n)].
Proof.
  unfold range.
  replace (Z.to_nat (Z.of_nat (S n) + 1 - 1)%Z) with (S n) by lia.
  replace (Z.to_nat (Z.of_nat n + 1 - 1)%Z) with n by lia.
  rewrite seq_S, map_app. cbn [map]. f_equal.
  replace (1 + Z.of_nat (0 + n))%Z with (Z.of_nat (S n)) by lia. reflexivity.
Qed.

Lemma range_to_nat (n : Z) :
  range 1 (n + 1)%Z = range 1 (Z.of_nat (Z.to_nat n) + 1)%Z.
Proof.
  unfold range. do 2 f_equal. lia.
Qed.

Lemma nth_map_seq {A : Type} (f : nat -> A) (n i : nat) (d : A) :
  (i < n)%nat -> nth i (map f (seq 0 n)) d = f i.
Proof.
  intros Hi.
  rewrite (nth_indep _ d (f 0%nat)) by (rewrite length_map, length_seq; exact Hi).
  rewrite map_nth, seq_nth by exact Hi. reflexivity.
Qed.

Section LoopFacts.
Context {F : Type} `{Number F}.
Variables monthly_payment monthly_rate principal : F.

Local Abbreviation state n :=
  (run_loop monthly_payment monthly_rate principal (Z.of_nat n)).
Local Abbreviation balance :=
  (balance_after monthly_payment monthly_rate principal).

Lemma run_loop_to_nat (n : Z) :
  run_loop monthly_payment monthly_rate principal n = state (Z.to_nat n).
Proof.
  unfold run_loop. rewrite <- range_to_nat. reflexivity.
Qed.

Lemma run_loop_succ (n : nat) :
  state (S n) = loop_body monthly_payment monthly_rate (state n) (Z.of_nat (S n)).
Proof.
  unfold run_loop. rewrite range_succ, fold_left_app. reflexivity.
Qed.

Lemma balance_after_0 : balance 0 = principal.
Proof. reflexivity. Qed.

(** The iteration state: the next running balance is computed from the
    previous running balance, never from a stored column. *)
Lemma balance_after_succ (k : nat) :
  balance (S k)
  = sub (balance k) (sub monthly_payment (mul (balance k) monthly_rate)).
Proof.
  unfold balance_after. rewrite run_loop_succ. reflexivity.
Qed.

Lemma payment_numbers_spec (n : nat) :
  payment_numbers (state n) = map (fun k => Z.of_nat (S k)) (seq 0 n).
Proof.
  induction n as [|n IH]; [reflexivity|].
  rewrite run_loop_succ, seq_S, map_app. simpl. rewrite IH. reflexivity.
Qed.

Lemma payment_amounts_spec (n : nat) :
  payment_amounts (state n) = map (fun _ => monthly_payment) (seq 0 n).
Proof.
  induction n as [|n IH]; [reflexivity|].
  rewrite run_loop_succ, seq_S, map_app. simpl. rewrite IH. reflexivity.
Qed.

Lemma interest_payments_spec (n : nat) :
  interest_payments (state n)
  = map (fun k => mul (balance k) monthly_rate) (seq 0 n).
Proof.
  induction n as [|n IH]; [reflexivity|].
  rewrite run_loop_succ, seq_S, map_app. simpl. rewrite IH. reflexivity.
Qed.

Lemma principal_payments_spec (n : nat) :
  principal_payments (state n)
  = map (fun k => sub monthly_payment (mul (balance k) monthly_rate))
        (seq 0 n).
Proof.
  induction n as [|n IH]; [reflexivity|].
  rewrite run_loop_succ, seq_S, map_app. simpl. rewrite IH. reflexivity.
Qed.

Lemma remaining_balances_spec (n : nat) :
  remaining_balances (state n) = map (fun k => max0 (balance (S k))) (seq 0 n).
Proof.
  induction n as [|n IH]; [reflexivity|].
  rewrite run_loop_succ, seq_S, map_app. simpl. rewrite IH.
  do 2 f_equal. rewrite balance_after_succ. reflexivity.
Qed.

End LoopFacts.

(** What a successful call returned: the frame of the loop's final state,
    for the payment and the rate the function computed first. *)
Lemma create_amortization_schedule_ok {F : Type} `{Number F}
    (principal annual_rate : F) (years : Z) (s : DataFrame F) :
  create_amortization_schedule principal annual_rate years = Ok s ->
  exists monthly_payment monthly_rate,
    calculate_monthly_payment principal annual_rate years = Ok monthly_payment
    /\ monthly_rate_of annual_rate = Ok monthly_rate
    /\ s = frame_of (run_loop monthly_payment monthly_rate principal
                              (Z.of_nat (Z.to_nat (years * 12)))).
Proof.
  unfold create_amortization_schedule. intros Hs.
  destruct (calculate_monthly_payment principal annual_rate years)
    as [m|e] eqn:Hm; [|discriminate].
  destruct (monthly_rate_of annual_rate) as [r|e] eqn:Hr; [|discriminate].
  simpl in Hs. injection Hs as <-.
  exists m, r. repeat split. rewrite (run_loop_to_nat m r principal). reflexivity.
Qed.

(** ** The schedule in exact arithmetic *)

Local Open Scope Q_scope.

(** Unfolds the operations of [Q_Number] and drops the reductions to lowest
    terms. *)
Ltac exact_ops :=
  cbn [of_int add sub mul truediv pow is_zero gt Q_Number] in *;
  unfold Qadd, Qsub, Qmul in *;
  rewrite ?Qred_correct in *.

Lemma Qsum_app (l1 l2 : list Q) : Qsum (l1 ++ l2) == Qsum l1 + Qsum l2.
Proof.
  induction l1 as [|x l1 IH]; simpl.
  - ring.
  - rewrite IH. ring.
Qed.

Lemma Qtruediv_nonzero (a b : Q) :
  ~ b == 0 -> Qtruediv a b = Ok (Qred (a / b)).
Proof.
  intros Hb. unfold Qtruediv.
  destruct (Qeq_bool b 0) eqn:E; [|reflexivity].
  apply Qeq_bool_eq in E. contradiction.
Qed.

Lemma Qtruediv_zero (a b : Q) :
  b == 0 -> Qtruediv a b = Raise ZeroDivisionError.
Proof.
  intros Hb. unfold Qtruediv.
  apply Qeq_bool_iff in Hb. rewrite Hb. reflexivity.
Qed.

Lemma Qpow_nonneg (a : Q) (n : Z) :
  (0 <= n)%Z -> Qpow a n = Ok (Qred (a ^ n)).
Proof.
  intros Hn. unfold Qpow.
  replace (n <? 0)%Z with false by (symmetry; apply Z.ltb_ge; exact Hn).
  rewrite andb_false_r. reflexivity.
Qed.

Lemma max0_pos (x : Q) : 0 < x -> max0 x = x.
Proof.
  intros Hx. unfold max0. cbn [gt of_int Q_Number]. unfold Qgt_bool.
  apply Qgt_alt in Hx. change (inject_Z 0) with 0. rewrite Hx. reflexivity.
Qed.

Lemma max0_nonpos (x : Q) : x <= 0 -> max0 x = 0.
Proof.
  intros Hx. unfold max0. cbn [gt of_int Q_Number]. unfold Qgt_bool.
  change (inject_Z 0) with 0.
  destruct (x ?= 0) eqn:E; try reflexivity.
  apply Qgt_alt in E. lra.
Qed.

(** [annual_rate / 100 / 12] never raises: both divisors are non-zero
    literals. *)
Lemma monthly_rate_of_exact (annual_rate : Q) :
  exists monthly_rate,
    monthly_rate_of annual_rate = Ok monthly_rate
    /\ monthly_rate == annual_rate / 100 / 12.
Proof.
  unfold monthly_rate_of. cbn [truediv of_int Q_Number].
  rewrite Qtruediv_nonzero by (intro E; discriminate E).
  cbn [bind].
  rewrite Qtruediv_nonzero by (intro E; discriminate E).
  eexists. split; [reflexivity|].
  rewrite !Qred_correct. reflexivity.
Qed.

Lemma Qpower_succ (q : Q) (k : nat) :
  q ^ Z.of_nat (S k) == q * q ^ Z.of_nat k.
Proof.
  rewrite Nat2Z.inj_succ. unfold Z.succ.
  rewrite Qpower_plus' by lia. simpl (q ^ 1). ring.
Qed.

Section ExactLoop.
Variables M r P : Q.

(** The running balance after [k] payments, and the growth factor. *)
Local Abbreviation b := (balance_after M r P).
Local Abbreviation g k := ((1 + r) ^ Z.of_nat k).

Lemma exact_balance_succ (k : nat) : b (S k) == b k - (M - b k * r).
Proof.
  rewrite (balance_after_succ M r P k). exact_ops. reflexivity.
Qed.

(** The balance in closed form, multiplied through by the rate. *)
Lemma exact_balance_closed (k : nat) :
  b k * r == P * r * g k - M * (g k - 1).
Proof.
  induction k as [|k IH].
  - change (b 0%nat) with P. simpl (_ ^ _). ring.
  - rewrite exact_balance_succ, Qpower_succ.
    setoid_replace ((b k - (M - b k * r)) * r)
      with (b k * r * (1 + r) - M * r) by ring.
    rewrite IH. ring.
Qed.

(** The principal portion of every period is the first one, grown. *)
Lemma exact_principal_portion (k : nat) :
  M - b k * r == (M - P * r) * g k.
Proof.
  rewrite exact_balance_closed. ring.
Qed.

(** The portions paid so far and the balance add up to the principal. *)
Lemma exact_principal_sum (n : nat) :
  Qsum (map (fun k => sub M (mul (b k) r)) (seq 0 n)) == P - b n.
Proof.
  induction n as [|n IH].
  - change (b 0%nat) with P. simpl. ring.
  - rewrite seq_S, map_app, Qsum_app, IH. simpl.
    rewrite exact_balance_succ. exact_ops. ring.
Qed.

Lemma exact_balance_zero_rate (k : nat) :
  r == 0 -> b k == P - inject_Z (Z.of_nat k) * M.
Proof.
  intros Hr. induction k as [|k IH].
  - change (b 0%nat) with P. simpl. ring.
  - rewrite exact_balance_succ, IH, Hr, Nat2Z.inj_succ.
    unfold Z.succ. rewrite inject_Z_plus. ring.
Qed.

End ExactLoop.

(** ** The monthly payment in exact arithmetic *)

Lemma inject_Z_nonzero (n : Z) : n <> 0%Z -> ~ inject_Z n == 0.
Proof.
  intros Hn E. unfold Qeq in E. simpl in E. lia.
Qed.

Lemma growth_gt_1 (r : Q) (n : Z) : 0 < r -> (0 < n)%Z -> 1 < (1 + r) ^ n.
Proof.
  intros Hr Hn. apply Qpower_1_lt; [lra | exact Hn].
Qed.

(** For a non-negative rate and a term of at least one year the function
    returns, and the payment it returns is the branch's formula. *)
Lemma calculate_monthly_payment_exact (principal annual_rate : Q) (years : Z) :
  0 <= annual_rate -> (1 <= years)%Z ->
  exists monthly_payment monthly_rate,
    monthly_rate_of annual_rate = Ok monthly_rate
    /\ monthly_rate == annual_rate / 100 / 12
    /\ calculate_monthly_payment principal annual_rate years = Ok monthly_payment
    /\ (monthly_rate == 0 ->
        monthly_payment == principal / inject_Z (years * 12))
    /\ (~ monthly_rate == 0 ->
        1 < (1 + monthly_rate) ^ (years * 12)
        /\ monthly_payment
           == principal * (monthly_rate * (1 + monthly_rate) ^ (years * 12))
              / ((1 + monthly_rate) ^ (years * 12) - 1)).
Proof.
  intros Ha Hy.
  destruct (monthly_rate_of_exact annual_rate) as (r & Hr & Hreq).
  assert (Hr0 : 0 <= r).
  { rewrite Hreq.
    setoid_replace (annual_rate / 100 / 12) with (annual_rate * (1 # 1200))
      by field.
    lra. }
  unfold calculate_monthly_payment. rewrite Hr. cbn [bind].
  cbn [is_zero truediv pow of_int add sub mul Q_Number].
  destruct (Qeq_bool r 0) eqn:E.
  - apply Qeq_bool_eq in E.
    rewrite Qtruediv_nonzero by (apply inject_Z_nonzero; lia).
    eexists _, r. repeat split; try eassumption; try reflexivity.
    + intros _. apply Qred_correct.
    + contradiction.
    + contradiction.
  - apply Qeq_bool_neq in E.
    assert (Hpos : 0 < r) by lra.
    assert (Hg : 1 < (1 + r) ^ (years * 12)) by (apply growth_gt_1; [exact Hpos | lia]).
    rewrite Qpow_nonneg by lia. cbn [bind].
    change (inject_Z 1) with 1.
    assert (HG : Qred (Qadd 1 r ^ (years * 12)) == (1 + r) ^ (years * 12)).
    { rewrite Qred_correct. unfold Qadd. rewrite Qred_correct. reflexivity. }
    rewrite Qtruediv_nonzero.
    2:{ unfold Qsub. rewrite Qred_correct, HG. lra. }
    eexists _, r. repeat split; try eassumption; try reflexivity.
    + intros E0. contradiction.
    + unfold Qsub, Qmul, Qadd. rewrite !Qred_correct. reflexivity.
Qed.

(** ** A valid loan: positive principal, non-negative rate, positive term *)

Section ValidLoan.
Variables M r P : Q.
Variable N : nat.
Hypothesis principal_pos : 0 < P.
Hypothesis rate_nonneg : 0 <= r.
Hypothesis term_pos : (0 < N)%nat.
Hypothesis payment_zero_rate :
  r == 0 -> M == P / inject_Z (Z.of_nat N).
Hypothesis payment_annuity :
  ~ r == 0 ->
  1 < (1 + r) ^ Z.of_nat N
  /\ M == P * (r * (1 + r) ^ Z.of_nat N) / ((1 + r) ^ Z.of_nat N - 1).

Local Abbreviation b := (balance_after M r P).

Lemma term_pos_Q : 0 < inject_Z (Z.of_nat N).
Proof.
  change 0 with (inject_Z 0). rewrite <- Zlt_Qlt. lia.
Qed.

(** The payment exceeds the interest on the whole principal. *)
Lemma first_portion_pos : 0 < M - P * r.
Proof.
  pose proof term_pos_Q as HN.
  destruct (Qeq_dec r 0) as [E|E].
  - rewrite (payment_zero_rate E), E.
    setoid_replace (P / inject_Z (Z.of_nat N) - P * 0)
      with (P / inject_Z (Z.of_nat N)) by ring.
    apply Qlt_shift_div_l; [exact HN | lra].
  - destruct (payment_annuity E) as [Hg HM].
    set (G := (1 + r) ^ Z.of_nat N) in *.
    assert (Hr : 0 < r) by lra.
    setoid_replace (M - P * r) with (P * r / (G - 1))
      by (rewrite HM; field; lra).
    apply Qlt_shift_div_l; [lra | nra].
Qed.

Lemma growth_pos (k : nat) : 0 < (1 + r) ^ Z.of_nat k.
Proof.
  apply Qpower_0_lt. lra.
Qed.

Lemma portion_pos (k : nat) : 0 < M - b k * r.
Proof.
  rewrite exact_principal_portion.
  apply Qmult_lt_0_compat; [exact first_portion_pos | apply growth_pos].
Qed.

Lemma balance_decreasing (k : nat) : b (S k) < b k.
Proof.
  pose proof (portion_pos k) as Hp.
  rewrite exact_balance_succ. lra.
Qed.

Lemma balance_antitone (k j : nat) : b (k + j) <= b k.
Proof.
  induction j as [|j IH].
  - rewrite Nat.add_0_r. lra.
  - rewrite Nat.add_succ_r. pose proof (balance_decreasing (k + j)). lra.
Qed.

(** The loan is paid off by the last payment, and not before. *)
Lemma balance_final : b N == 0.
Proof.
  pose proof term_pos_Q as HN.
  destruct (Qeq_dec r 0) as [E|E].
  - rewrite (exact_balance_zero_rate M r P N E).
    rewrite (payment_zero_rate E). field. lra.
  - destruct (payment_annuity E) as [Hg HM].
    pose proof (exact_balance_closed M r P N) as Hc.
    set (G := (1 + r) ^ Z.of_nat N) in *.
    assert (H0 : balance_after M r P N * r == 0).
    { rewrite Hc, HM. field. lra. }
    apply Qmult_integral in H0. destruct H0 as [H0|H0]; [exact H0|].
    contradiction.
Qed.

Lemma balance_pos (k : nat) : (k < N)%nat -> 0 < b k.
Proof.
  intros Hk.
  pose proof (balance_decreasing k) as Hd.
  pose proof (balance_antitone (S k) (N - S k)) as Ha.
  replace (S k + (N - S k))%nat with N in Ha by lia.
  rewrite balance_final in Ha. lra.
Qed.

End ValidLoan.

(** ** The schedule of a valid loan *)

Lemma num_periods_pos (years : Z) : (1 <= years)%Z -> (0 < num_periods years)%nat.
Proof. unfold num_periods. lia. Qed.

Lemma num_periods_Z (years : Z) :
  (1 <= years)%Z -> Z.of_nat (num_periods years) = (years * 12)%Z.
Proof. unfold num_periods. lia. Qed.

(** For a non-negative rate and a term of at least one year,
    [create_amortization_schedule] returns the frame of the loop run with
    the payment and the rate of [calculate_monthly_payment]. *)
Lemma valid_schedule_exact (principal annual_rate : Q) (years : Z) :
  0 <= annual_rate -> (1 <= years)%Z ->
  exists M r s,
    calculate_monthly_payment principal annual_rate years = Ok M
    /\ monthly_rate_of annual_rate = Ok r
    /\ r == annual_rate / 100 / 12
    /\ 0 <= r
    /\ create_amortization_schedule principal annual_rate years = Ok s
    /\ s = frame_of (run_loop M r principal (Z.of_nat (num_periods years)))
    /\ (r == 0 -> M == principal / inject_Z (Z.of_nat (num_periods years)))
    /\ (~ r == 0 ->
        1 < (1 + r) ^ Z.of_nat (num_periods years)
        /\ M == principal * (r * (1 + r) ^ Z.of_nat (num_periods years))
                / ((1 + r) ^ Z.of_nat (num_periods years) - 1)).
Proof.
  intros Ha Hy.
  destruct (calculate_monthly_payment_exact principal annual_rate years Ha Hy)
    as (M & r & Hr & Hreq & HM & Hz & Hp).
  exists M, r. eexists. rewrite (num_periods_Z years Hy).
  repeat split; try eassumption.
  - rewrite Hreq.
    setoid_replace (annual_rate / 100 / 12) with (annual_rate * (1 # 1200))
      by field.
    lra.
  - unfold create_amortization_schedule. rewrite HM, Hr. cbn [bind].
    reflexivity.
  - apply Hp. assumption.
  - apply Hp. assumption.
Qed.

(** The columns of the frame, period by period ([i] counts from 0). *)
Section Columns.
Context {F : Type} `{Number F}.
Variables (M r P : F) (n : nat).

Let s : DataFrame F := frame_of (run_loop M r P (Z.of_nat n)).

Lemma Payment_Number_length : length (Payment_Number s) = n.
Proof.
  unfold s. cbn [frame_of Payment_Number].
  rewrite payment_numbers_spec, length_map, length_seq. reflexivity.
Qed.

Lemma Payment_Amount_length : length (Payment_Amount s) = n.
Proof.
  unfold s. cbn [frame_of Payment_Amount].
  rewrite payment_amounts_spec, length_map, length_seq. reflexivity.
Qed.

Lemma Principal_Payment_length : length (Principal_Payment s) = n.
Proof.
  unfold s. cbn [frame_of Principal_Payment].
  rewrite principal_payments_spec, length_map, length_seq. reflexivity.
Qed.

Lemma Interest_Payment_length : length (Interest_Payment s) = n.
Proof.
  unfold s. cbn [frame_of Interest_Payment].
  rewrite interest_payments_spec, length_map, length_seq. reflexivity.
Qed.

Lemma Remaining_Balance_length : length (Remaining_Balance s) = n.
Proof.
  unfold s. cbn [frame_of Remaining_Balance].
  rewrite remaining_balances_spec, length_map, length_seq. reflexivity.
Qed.

Lemma Payment_Number_nth (i : nat) (d : Z) :
  (i < n)%nat -> nth i (Payment_Number s) d = Z.of_nat (S i).
Proof.
  intros Hi. unfold s. cbn [frame_of Payment_Number].
  rewrite payment_numbers_spec.
  exact (nth_map_seq (fun k => Z.of_nat (S k)) n i d Hi).
Qed.

Lemma Payment_Amount_nth (i : nat) (d : F) :
  (i < n)%nat -> nth i (Payment_Amount s) d = M.
Proof.
  intros Hi. unfold s. cbn [frame_of Payment_Amount].
  rewrite payment_amounts_spec.
  exact (nth_map_seq (fun _ => M) n i d Hi).
Qed.

Lemma Interest_Payment_nth (i : nat) (d : F) :
  (i < n)%nat ->
  nth i (Interest_Payment s) d = mul (balance_after M r P i) r.
Proof.
  intros Hi. unfold s. cbn [frame_of Interest_Payment].
  rewrite interest_payments_spec.
  exact (nth_map_seq (fun k => mul (balance_after M r P k) r) n i d Hi).
Qed.

Lemma Principal_Payment_nth (i : nat) (d : F) :
  (i < n)%nat ->
  nth i (Principal_Payment s) d = sub M (mul (balance_after M r P i) r).
Proof.
  intros Hi. unfold s. cbn [frame_of Principal_Payment].
  rewrite principal_payments_spec.
  exact (nth_map_seq (fun k => sub M (mul (balance_after M r P k) r))
                     n i d Hi).
Qed.

Lemma Remaining_Balance_nth (i : nat) (d : F) :
  (i < n)%nat ->
  nth i (Remaining_Balance s) d = max0 (balance_after M r P (S i)).
Proof.
  intros Hi. unfold s. cbn [frame_of Remaining_Balance].
  rewrite remaining_balances_spec.
  exact (nth_map_seq (fun k => max0 (balance_after M r P (S k))) n i d Hi).
Qed.

End Columns.

(** ** Auxiliary facts *)

Lemma Qsum_const (x : Q) (n start : nat) :
  Qsum (map (fun _ => x) (seq start n)) == inject_Z (Z.of_nat n) * x.
Proof.
  revert start. induction n as [|n IH]; intros start.
  - simpl. ring.
  - cbn [seq map Qsum fold_right]. fold (Qsum (map (fun _ => x) (seq (S start) n))).
    rewrite IH, Nat2Z.inj_succ. unfold Z.succ. rewrite inject_Z_plus. ring.
Qed.

Lemma balance_after_is_spec {F : Type} `{Number F}
    (M r P : F) (N n : nat) :
  (n <= N)%nat ->
  balance_after M r P n
  = spec_remaining_balance P
      (Principal_Payment (frame_of (run_loop M r P (Z.of_nat N)))) n.
Proof.
  induction n as [|n IH]; intros Hn.
  - reflexivity.
  - cbn [spec_remaining_balance].
    rewrite <- IH by lia. rewrite Principal_Payment_nth by lia.
    apply balance_after_succ.
Qed.

(** In exact arithmetic the annuity branch is safe: for a positive rate and
    a term of at least one year the denominator is positive, the function
    returns, and the payment is positive for a positive principal. *)
Lemma exact_annuity_denominator_positive
    (principal annual_rate : Q) (years : Z) :
  0 < annual_rate -> (1 <= years)%Z ->
  0 < (1 + annual_rate / 100 / 12) ^ (years * 12) - 1
  /\ exists monthly_payment,
       calculate_monthly_payment principal annual_rate years
       = Ok monthly_payment
       /\ (0 < principal -> 0 < monthly_payment).
Proof.
  intros Ha Hy.
  assert (Ha' : 0 <= annual_rate) by lra.
  destruct (valid_schedule_exact principal annual_rate years Ha' Hy)
    as (M & r & s & HM & _ & Hreq & Hr & _ & _ & Hz & Hp).
  assert (Hpos : 0 < r).
  { rewrite Hreq.
    setoid_replace (annual_rate / 100 / 12) with (annual_rate * (1 # 1200))
      by field.
    lra. }
  assert (Hne : ~ r == 0) by lra.
  split.
  - rewrite <- Hreq. destruct (calculate_monthly_payment_exact
      principal annual_rate years Ha' Hy) as (M' & r' & Hr' & Hreq' & _ & _ & Hp').
    assert (Hrr : r' == r) by (rewrite Hreq', Hreq; reflexivity).
    rewrite <- Hrr. assert (Hne' : ~ r' == 0) by (rewrite Hrr; exact Hne).
    destruct (Hp' Hne') as [Hg _]. lra.
  - exists M. split; [exact HM |]. intros HP.
    pose proof (first_portion_pos M r principal _ HP Hr
                  (num_periods_pos years Hy) Hz Hp).
    nra.
Qed.

(** * The claims *)

(** C1, as amended.  In exact arithmetic every valid loan is fully
    amortized: the principal portions of all periods sum to the principal,
    and the last recorded remaining balance is zero. *)
Theorem exact_full_amortization (principal annual_rate : Q) (years : Z) :
  0 < principal -> 0 <= annual_rate -> (1 <= years)%Z ->
  exists s,
    create_amortization_schedule principal annual_rate years = Ok s
    /\ Qsum (Principal_Payment s) == principal
    /\ Remaining_Balance s <> []
    /\ last (Remaining_Balance s) 1 == 0.
Proof.
  intros HP Ha Hy.
  destruct (valid_schedule_exact principal annual_rate years Ha Hy)
    as (M & r & s & _ & _ & _ & Hr & Hs & -> & Hz & Hp).
  pose proof (num_periods_pos years Hy) as HN.
  pose proof (balance_final M r principal _ Hr HN Hz Hp) as Hf.
  eexists. split; [exact Hs |].
  cbn [frame_of Principal_Payment Remaining_Balance].
  rewrite principal_payments_spec, remaining_balances_spec.
  split; [| split].
  - rewrite exact_principal_sum, Hf. ring.
  - destruct (num_periods years); [lia | discriminate].
  - destruct (num_periods years) as [|n]; [lia |].
    rewrite seq_S, map_app. cbn [map Nat.add]. rewrite last_last.
    rewrite max0_nonpos by (rewrite Hf; lra). reflexivity.
Qed.

Lemma exact_full_amortization_witness :
  0 < 100000 /\ 0 <= 0 /\ (1 <= 10)%Z
  /\ exists s,
       create_amortization_schedule 100000 0 10 = Ok s
       /\ Qsum (Principal_Payment s) == 100000
       /\ Remaining_Balance s <> []
       /\ last (Remaining_Balance s) 1 == 0.
Proof.
  assert (HP : 0 < 100000) by reflexivity.
  assert (Ha : 0 <= 0) by (unfold Qle; simpl; lia).
  assert (Hy : (1 <= 10)%Z) by lia.
  split; [exact HP | split; [exact Ha | split; [exact Hy |]]].
  exact (exact_full_amortization 100000 0 10 HP Ha Hy).
Defined.

(** C1, as stated, fails on the arithmetic the program runs.  For the valid
    loan of 100000 at 0 percent over 10 years the binary64 schedule ends
    with a positive residual: the clamp leaves it as it is, so the last
    recorded remaining balance is not zero. *)
Lemma binary64_final_balance_residual :
  PrimFloat.ltb 0 100000 = true
  /\ PrimFloat.leb 0 0 = true
  /\ (1 <= 10)%Z
  /\ exists s,
       create_amortization_schedule 100000%float 0%float 10 = Ok s
       /\ last (Remaining_Balance s) 0%float = 1.2346390576567501e-10%float
       /\ PrimFloat.eqb (last (Remaining_Balance s) 0%float) 0 = false.
Proof.
  split; [reflexivity | split; [reflexivity | split; [lia |]]].
  eexists. split; [vm_compute; reflexivity |].
  split; vm_compute; reflexivity.
Qed.

(** C2.  Whatever the arithmetic and whatever the input, when
    [create_amortization_schedule] returns a schedule, the running balance
    the loop carries after [n] payments is the unclamped balance of the
    recurrence, the interest of the next period is computed from that
    unclamped balance, and only the value stored in the record is clamped
    by [max(0, .)]: the clamp never reaches the iteration state. *)
Theorem running_balance_is_unclamped {F : Type} `{Number F}
    (principal annual_rate : F) (years : Z) (s : DataFrame F) :
  create_amortization_schedule principal annual_rate years = Ok s ->
  exists monthly_payment monthly_rate,
    calculate_monthly_payment principal annual_rate years = Ok monthly_payment
    /\ monthly_rate_of annual_rate = Ok monthly_rate
    /\ forall n : nat,
         (n < length (Payment_Number s))%nat ->
         balance_after monthly_payment monthly_rate principal n
         = spec_remaining_balance principal (Principal_Payment s) n
         /\ nth n (Interest_Payment s) (of_int 0)
            = mul (spec_remaining_balance principal (Principal_Payment s) n)
                  monthly_rate
         /\ nth n (Remaining_Balance s) (of_int 0)
            = max0 (spec_remaining_balance principal (Principal_Payment s)
                                           (S n)).
Proof.
  intros Hs.
  destruct (create_amortization_schedule_ok _ _ _ _ Hs)
    as (M & r & HM & Hr & ->).
  exists M, r. split; [exact HM | split; [exact Hr |]].
  intros n Hn. rewrite Payment_Number_length in Hn.
  rewrite Interest_Payment_nth, Remaining_Balance_nth by exact Hn.
  rewrite <- !balance_after_is_spec by lia.
  repeat split.
Qed.

(** A loan whose balance is negative from the start (an input outside the
    valid domain): every recorded balance is clamped to zero, and the
    interest of each period is still computed from the negative running
    balance. *)
Example clamped_records_unclamped_state :
  exists s,
    create_amortization_schedule (-1200) 12 1 = Ok s
    /\ firstn 3 (Remaining_Balance s) = [0; 0; 0]
    /\ firstn 3 (Interest_Payment s)
       = [-12; -467300120527878882644804 # 42275010043989906887067;
          -2123881196656113844004 # 210323433054676153667].
Proof.
  eexists. split; [vm_compute; reflexivity |].
  split; vm_compute; reflexivity.
Qed.

Lemma running_balance_is_unclamped_witness :
  exists s,
    create_amortization_schedule 1200 0 1 = Ok s
    /\ exists monthly_payment monthly_rate,
         calculate_monthly_payment 1200 0 1 = Ok monthly_payment
         /\ monthly_rate_of 0 = Ok monthly_rate
         /\ forall n : nat,
              (n < length (Payment_Number s))%nat ->
              balance_after monthly_payment monthly_rate 1200 n
              = spec_remaining_balance 1200 (Principal_Payment s) n
              /\ nth n (Interest_Payment s) (of_int 0)
                 = mul (spec_remaining_balance 1200 (Principal_Payment s) n)
                       monthly_rate
              /\ nth n (Remaining_Balance s) (of_int 0)
                 = max0 (spec_remaining_balance 1200 (Principal_Payment s)
                                                (S n)).
Proof.
  eexists. split; [vm_compute; reflexivity |].
  apply (running_balance_is_unclamped (F:=Q) 1200 0 1).
  vm_compute. reflexivity.
Defined.

(** C3.  For every valid input [calculate_monthly_payment] returns
    [principal / (years * 12)] when [annual_rate / 100 / 12] is zero, and
    otherwise the annuity payment
    [principal * (rate * (1 + rate) ^ n) / ((1 + rate) ^ n - 1)] with
    [rate = annual_rate / 100 / 12] and [n = years * 12]. *)
Theorem monthly_payment_formula (principal annual_rate : Q) (years : Z) :
  0 <= annual_rate -> (1 <= years)%Z ->
  exists monthly_payment,
    calculate_monthly_payment principal annual_rate years = Ok monthly_payment
    /\ (annual_rate / 100 / 12 == 0 ->
        monthly_payment == principal / inject_Z (years * 12))
    /\ (~ annual_rate / 100 / 12 == 0 ->
        monthly_payment
        == principal
           * (annual_rate / 100 / 12
              * (1 + annual_rate / 100 / 12) ^ (years * 12))
           / ((1 + annual_rate / 100 / 12) ^ (years * 12) - 1)).
Proof.
  intros Ha Hy.
  destruct (calculate_monthly_payment_exact principal annual_rate years Ha Hy)
    as (M & r & _ & Hreq & HM & Hz & Hp).
  exists M. split; [exact HM |]. rewrite <- Hreq. split.
  - exact Hz.
  - intros Hr. apply Hp. exact Hr.
Qed.

Lemma monthly_payment_formula_witness :
  0 <= 20 /\ (1 <= 1)%Z
  /\ exists monthly_payment,
       calculate_monthly_payment 1000 20 1 = Ok monthly_payment
       /\ monthly_payment
          == 1000 * (20 / 100 / 12 * (1 + 20 / 100 / 12) ^ (1 * 12))
             / ((1 + 20 / 100 / 12) ^ (1 * 12) - 1).
Proof.
  assert (Ha : 0 <= 20) by (unfold Qle; simpl; lia).
  assert (Hy : (1 <= 1)%Z) by lia.
  split; [exact Ha | split; [exact Hy |]].
  destruct (monthly_payment_formula 1000 20 1 Ha Hy) as (M & HM & _ & Hp).
  exists M. split; [exact HM |]. apply Hp. intro E. discriminate E.
Defined.

(** C4, as stated, fails: with a term of zero years and a zero rate the
    division is not guarded, and what is raised is Python's
    [ZeroDivisionError], not [InvalidInput]. *)
Lemma zero_term_raises_ZeroDivisionError :
  calculate_monthly_payment 1000%float 0%float 0 = Raise ZeroDivisionError
  /\ calculate_monthly_payment 1000%float 0%float 0 <> Raise InvalidInput
  /\ calculate_monthly_payment 1000 0 0 = Raise ZeroDivisionError
  /\ calculate_monthly_payment 1000 0 0 <> Raise InvalidInput.
Proof.
  repeat split; try (vm_compute; reflexivity); vm_compute; discriminate.
Qed.

(** C4, as amended.  When [calculate_monthly_payment] is called with a
    term of zero or fewer years and a zero monthly rate, nothing guards the
    division [principal / num_payments] and [InvalidInput] is never
    reported: a term of zero years raises [ZeroDivisionError], and a
    negative term divides by the negative payment count and returns the
    quotient. *)
Theorem out_of_domain_term_is_unguarded
    (principal annual_rate : Q) (years : Z) :
  annual_rate / 100 / 12 == 0 -> (years <= 0)%Z ->
  calculate_monthly_payment principal annual_rate years <> Raise InvalidInput
  /\ (years = 0%Z ->
      calculate_monthly_payment principal annual_rate years
      = Raise ZeroDivisionError)
  /\ ((years < 0)%Z ->
      exists monthly_payment,
        calculate_monthly_payment principal annual_rate years
        = Ok monthly_payment
        /\ monthly_payment == principal / inject_Z (years * 12)).
Proof.
  intros Ha Hy.
  destruct (monthly_rate_of_exact annual_rate) as (r & Hr & Hreq).
  assert (E : Qeq_bool r 0 = true) by (apply Qeq_bool_iff; rewrite Hreq; exact Ha).
  unfold calculate_monthly_payment. rewrite Hr. cbn [bind].
  cbn [is_zero truediv of_int Q_Number]. rewrite E.
  destruct (Z.eq_dec years 0) as [->|Hne].
  - cbn [Z.mul]. rewrite Qtruediv_zero by reflexivity.
    split; [discriminate | split; [reflexivity | lia]].
  - rewrite Qtruediv_nonzero by (apply inject_Z_nonzero; lia).
    split; [discriminate | split; [contradiction |]].
    intros _. eexists. split; [reflexivity | apply Qred_correct].
Qed.

Lemma out_of_domain_term_is_unguarded_witness :
  0 / 100 / 12 == 0 /\ (0 <= 0)%Z
  /\ calculate_monthly_payment 1000 0 0 = Raise ZeroDivisionError.
Proof.
  assert (Ha : 0 / 100 / 12 == 0) by reflexivity.
  assert (Hy : (0 <= 0)%Z) by lia.
  split; [exact Ha | split; [exact Hy |]].
  exact (proj1 (proj2 (out_of_domain_term_is_unguarded 1000 0 0 Ha Hy))
               eq_refl).
Defined.

(** C5.  For every valid input and every period of the generated schedule,
    the principal portion and the interest portion add up to the payment
    amount recorded for the period, which is the constant monthly payment
    (exact arithmetic, balances unclamped). *)
Theorem portions_sum_to_payment (principal annual_rate : Q) (years : Z) :
  0 <= annual_rate -> (1 <= years)%Z ->
  exists monthly_payment s,
    calculate_monthly_payment principal annual_rate years = Ok monthly_payment
    /\ create_amortization_schedule principal annual_rate years = Ok s
    /\ forall i : nat,
         (i < length (Payment_Number s))%nat ->
         nth i (Payment_Amount s) 0 = monthly_payment
         /\ nth i (Principal_Payment s) 0 + nth i (Interest_Payment s) 0
            == nth i (Payment_Amount s) 0.
Proof.
  intros Ha Hy.
  destruct (valid_schedule_exact principal annual_rate years Ha Hy)
    as (M & r & s & HM & _ & _ & _ & Hs & -> & _).
  exists M. eexists. split; [exact HM | split; [exact Hs |]].
  intros i Hi. rewrite Payment_Number_length in Hi.
  rewrite Payment_Amount_nth, Principal_Payment_nth, Interest_Payment_nth
    by exact Hi.
  split; [reflexivity |]. exact_ops. ring.
Qed.

Lemma portions_sum_to_payment_witness :
  0 <= 6 /\ (1 <= 1)%Z
  /\ exists monthly_payment s,
       calculate_monthly_payment 1000 6 1 = Ok monthly_payment
       /\ create_amortization_schedule 1000 6 1 = Ok s
       /\ nth 0 (Principal_Payment s) 0 + nth 0 (Interest_Payment s) 0
          == monthly_payment.
Proof.
  assert (Ha : 0 <= 6) by (unfold Qle; simpl; lia).
  assert (Hy : (1 <= 1)%Z) by lia.
  split; [exact Ha | split; [exact Hy |]].
  destruct (portions_sum_to_payment 1000 6 1 Ha Hy) as (M & s & HM & Hs & Hall).
  exists M, s. split; [exact HM | split; [exact Hs |]].
  assert (Hlen : (0 < length (Payment_Number s))%nat).
  { vm_compute in Hs. injection Hs as <-. simpl. lia. }
  destruct (Hall 0%nat Hlen) as [H1 H2]. rewrite <- H1. exact H2.
Defined.

(** C6.  For every valid input the monthly payment is positive and the
    recorded remaining balances decrease strictly from each period to the
    next, for all periods after the first.  In exact arithmetic the clamp
    never cuts a balance (the last one is zero already), so there is no
    exception to make for it. *)
Theorem recorded_balance_strictly_decreasing
    (principal annual_rate : Q) (years : Z) :
  0 < principal -> 0 <= annual_rate -> (1 <= years)%Z ->
  exists monthly_payment s,
    calculate_monthly_payment principal annual_rate years = Ok monthly_payment
    /\ 0 < monthly_payment
    /\ create_amortization_schedule principal annual_rate years = Ok s
    /\ forall i : nat,
         (1 <= i < length (Remaining_Balance s))%nat ->
         nth i (Remaining_Balance s) 0 < nth (i - 1) (Remaining_Balance s) 0.
Proof.
  intros HP Ha Hy.
  destruct (valid_schedule_exact principal annual_rate years Ha Hy)
    as (M & r & s & HM & _ & _ & Hr & Hs & -> & Hz & Hp).
  pose proof (num_periods_pos years Hy) as HN.
  exists M. eexists. split; [exact HM | split; [| split; [exact Hs |]]].
  - pose proof (first_portion_pos M r principal _ HP Hr HN Hz Hp). nra.
  - intros i Hi. rewrite Remaining_Balance_length in Hi.
    rewrite !Remaining_Balance_nth by lia.
    replace (S (i - 1)) with i by lia.
    pose proof (balance_pos M r principal _ HP Hr HN Hz Hp i (proj2 Hi)) as Hbi.
    pose proof (balance_decreasing M r principal _ HP Hr HN Hz Hp i) as Hd.
    rewrite (max0_pos _ Hbi).
    destruct (Nat.eq_dec (S i) (num_periods years)) as [E|E].
    + pose proof (balance_final M r principal _ Hr HN Hz Hp) as Hf.
      rewrite <- E in Hf. rewrite max0_nonpos by (rewrite Hf; lra).
      exact Hbi.
    + rewrite max0_pos; [exact Hd |].
      apply (balance_pos M r principal _ HP Hr HN Hz Hp). lia.
Qed.

Lemma recorded_balance_strictly_decreasing_witness :
  0 < 1000 /\ 0 <= 6 /\ (1 <= 1)%Z
  /\ exists monthly_payment s,
       calculate_monthly_payment 1000 6 1 = Ok monthly_payment
       /\ 0 < monthly_payment
       /\ create_amortization_schedule 1000 6 1 = Ok s
       /\ forall i : nat,
            (1 <= i < length (Remaining_Balance s))%nat ->
            nth i (Remaining_Balance s) 0
            < nth (i - 1) (Remaining_Balance s) 0.
Proof.
  assert (HP : 0 < 1000) by reflexivity.
  assert (Ha : 0 <= 6) by (unfold Qle; simpl; lia).
  assert (Hy : (1 <= 1)%Z) by lia.
  split; [exact HP | split; [exact Ha | split; [exact Hy |]]].
  exact (recorded_balance_strictly_decreasing 1000 6 1 HP Ha Hy).
Defined.

(** C7.  For every valid term (and a non-negative rate), the schedule
    returned by [create_amortization_schedule] has exactly [years * 12]
    records, in each of its five columns, and the payment number of the
    [i]-th record is [i], counting from 1: the numbers are sequential, so
    unique and strictly ascending. *)
Theorem schedule_length_and_numbering
    (principal annual_rate : Q) (years : Z) :
  0 <= annual_rate -> (1 <= years)%Z ->
  exists s,
    create_amortization_schedule principal annual_rate years = Ok s
    /\ Z.of_nat (length (Payment_Number s)) = (years * 12)%Z
    /\ length (Payment_Amount s) = length (Payment_Number s)
    /\ length (Principal_Payment s) = length (Payment_Number s)
    /\ length (Interest_Payment s) = length (Payment_Number s)
    /\ length (Remaining_Balance s) = length (Payment_Number s)
    /\ forall i : nat,
         (i < length (Payment_Number s))%nat ->
         nth i (Payment_Number s) 0%Z = (Z.of_nat i + 1)%Z.
Proof.
  intros Ha Hy.
  destruct (valid_schedule_exact principal annual_rate years Ha Hy)
    as (M & r & s & _ & _ & _ & _ & Hs & -> & _).
  exists (frame_of (run_loop M r principal (Z.of_nat (num_periods years)))).
  rewrite Payment_Number_length, Payment_Amount_length,
    Principal_Payment_length, Interest_Payment_length,
    Remaining_Balance_length.
  repeat split; try reflexivity.
  - exact Hs.
  - apply num_periods_Z. exact Hy.
  - intros i Hi. rewrite Payment_Number_nth by exact Hi. lia.
Qed.

Lemma schedule_length_and_numbering_witness :
  0 <= 65 # 10 /\ (1 <= 30)%Z
  /\ exists s,
       create_amortization_schedule 300000 (65 # 10) 30 = Ok s
       /\ Z.of_nat (length (Payment_Number s)) = 360%Z.
Proof.
  assert (Ha : 0 <= 65 # 10) by (unfold Qle; simpl; lia).
  assert (Hy : (1 <= 30)%Z) by lia.
  split; [exact Ha | split; [exact Hy |]].
  destruct (schedule_length_and_numbering 300000 (65 # 10) 30 Ha Hy)
    as (s & Hs & Hlen & _).
  exists s. split; [exact Hs | exact Hlen].
Defined.

(** C8.  When the annual rate is zero and the other inputs are valid, the
    schedule is generated (the zero rate is not an error), every period has
    a zero interest portion, and every period's principal portion is
    [principal / num_payments], the same in all periods. *)
Theorem zero_rate_schedule (principal annual_rate : Q) (years : Z) :
  annual_rate == 0 -> (1 <= years)%Z ->
  exists s,
    create_amortization_schedule principal annual_rate years = Ok s
    /\ forall i : nat,
         (i < length (Payment_Number s))%nat ->
         nth i (Interest_Payment s) 1 == 0
         /\ nth i (Principal_Payment s) 0 == principal / inject_Z (years * 12).
Proof.
  intros Ha Hy.
  assert (Ha' : 0 <= annual_rate) by (rewrite Ha; lra).
  destruct (valid_schedule_exact principal annual_rate years Ha' Hy)
    as (M & r & s & _ & _ & Hreq & _ & Hs & -> & Hz & _).
  assert (Hr : r == 0) by (rewrite Hreq, Ha; reflexivity).
  specialize (Hz Hr). rewrite (num_periods_Z years Hy) in Hz.
  eexists. split; [exact Hs |].
  intros i Hi. rewrite Payment_Number_length in Hi.
  rewrite Principal_Payment_nth, Interest_Payment_nth by exact Hi.
  exact_ops. generalize (balance_after M r principal i). intros b.
  rewrite Hr, Hz. split; ring.
Qed.

Lemma zero_rate_schedule_witness :
  0 == 0 /\ (1 <= 10)%Z
  /\ exists s,
       create_amortization_schedule 100000 0 10 = Ok s
       /\ forall i : nat,
            (i < length (Payment_Number s))%nat ->
            nth i (Interest_Payment s) 1 == 0
            /\ nth i (Principal_Payment s) 0 == 100000 / inject_Z (10 * 12).
Proof.
  assert (Ha : 0 == 0) by reflexivity.
  assert (Hy : (1 <= 10)%Z) by lia.
  split; [exact Ha | split; [exact Hy |]].
  exact (zero_rate_schedule 100000 0 10 Ha Hy).
Defined.

(** C9.  For every valid input, the total paid computed by the main script,
    [monthly_payment * loan_years * 12], is the monthly payment times the
    number of periods of the schedule and is the sum of the payment amounts
    over all its periods; the total interest is the total paid minus the
    principal. *)
Theorem summary_statistics (principal annual_rate : Q) (years : Z) :
  0 <= annual_rate -> (1 <= years)%Z ->
  exists monthly_payment s,
    calculate_monthly_payment principal annual_rate years = Ok monthly_payment
    /\ create_amortization_schedule principal annual_rate years = Ok s
    /\ total_payments monthly_payment years
       == monthly_payment * inject_Z (Z.of_nat (length (Payment_Number s)))
    /\ total_payments monthly_payment years == Qsum (Payment_Amount s)
    /\ total_interest (total_payments monthly_payment years) principal
       == Qsum (Payment_Amount s) - principal.
Proof.
  intros Ha Hy.
  destruct (valid_schedule_exact principal annual_rate years Ha Hy)
    as (M & r & s & HM & _ & _ & _ & Hs & -> & _).
  exists M. eexists. split; [exact HM | split; [exact Hs |]].
  rewrite Payment_Number_length.
  cbn [frame_of Payment_Amount]. rewrite payment_amounts_spec, Qsum_const.
  rewrite (num_periods_Z years Hy).
  unfold total_interest, total_payments. exact_ops.
  rewrite inject_Z_mult. repeat split; ring.
Qed.

Lemma summary_statistics_witness :
  0 <= 20 /\ (1 <= 1)%Z
  /\ exists monthly_payment s,
       calculate_monthly_payment 1000 20 1 = Ok monthly_payment
       /\ create_amortization_schedule 1000 20 1 = Ok s
       /\ total_payments monthly_payment 1 == Qsum (Payment_Amount s)
       /\ total_interest (total_payments monthly_payment 1) 1000
          == Qsum (Payment_Amount s) - 1000.
Proof.
  assert (Ha : 0 <= 20) by (unfold Qle; simpl; lia).
  assert (Hy : (1 <= 1)%Z) by lia.
  split; [exact Ha | split; [exact Hy |]].
  destruct (summary_statistics 1000 20 1 Ha Hy)
    as (M & s & HM & Hs & _ & Hsum & Hint).
  exists M, s. repeat split; assumption.
Defined.

(** C10 on the arithmetic the program runs.  The annual rate [1e-15] is
    positive and its monthly rate is not zero, so the annuity branch is
    taken; but [1 + monthly_rate] rounds to [1.0], the denominator
    [(1 + monthly_rate) ** 12 - 1] is zero, and the division raises
    [ZeroDivisionError]. *)
Lemma binary64_tiny_rate_divides_by_zero :
  PrimFloat.ltb 0 1e-15 = true
  /\ monthly_rate_of 1e-15%float = Ok 8.3333333333333343e-19%float
  /\ PrimFloat.eqb 8.3333333333333343e-19 0 = false
  /\ PrimFloat.add 1 8.3333333333333343e-19 = 1%float
  /\ calculate_monthly_payment 1000%float 1e-15%float 1
     = Raise ZeroDivisionError
  /\ create_amortization_schedule 1000%float 1e-15%float 1
     = Raise ZeroDivisionError.
Proof.
  repeat split; vm_compute; reflexivity.
Qed.

(** ** The design's concrete scenarios, in exact arithmetic *)

(** 300000 at 6.5 percent over 30 years: the payment is 1896.20 to the
    cent, and the first period splits into 1625.00 of interest and 271.20
    of principal. *)
Example scenario_1_first_period :
  exists monthly_payment monthly_rate,
    calculate_monthly_payment 300000 (65 # 10) 30 = Ok monthly_payment
    /\ monthly_rate_of (65 # 10) = Ok monthly_rate
    /\ 189620 # 100 <= monthly_payment < 189621 # 100
    /\ interest_payments
         (loop_body monthly_payment monthly_rate (loop_init 300000) 1)
       = [1625]
    /\ Forall (fun p => 27120 # 100 <= p < 27121 # 100)
         (principal_payments
            (loop_body monthly_payment monthly_rate (loop_init 300000) 1)).
Proof.
  eexists. eexists.
  split; [vm_compute; reflexivity |].
  split; [vm_compute; reflexivity |].
  split; [split; [vm_compute; intro E; discriminate E | vm_compute; reflexivity] |].
  split; [vm_compute; reflexivity |].
  constructor; [| constructor].
  split; [vm_compute; intro E; discriminate E | vm_compute; reflexivity].
Qed.

(** 1000 at 20 percent over one year: the total paid exceeds the
    principal. *)
Example scenario_3_interest :
  exists monthly_payment,
    calculate_monthly_payment 1000 20 1 = Ok monthly_payment
    /\ 1000 < total_payments monthly_payment 1
    /\ 0 < total_interest (total_payments monthly_payment 1) 1000.
Proof.
  eexists. split; [vm_compute; reflexivity |].
  split; vm_compute; reflexivity.
Qed.

(** * Further properties of the code *)

(** ** Row selections *)

Lemma slice_from_map {A B : Type} (f : A -> B) (step wait : nat) (l : list A) :
  slice_from step wait (map f l) = map f (slice_from step wait l).
Proof.
  revert wait. induction l as [|x l IH]; intros wait; [reflexivity |].
  destruct wait as [|w]; cbn [map slice_from]; rewrite IH; reflexivity.
Qed.

Lemma slice_from_skipn {A : Type} (step wait : nat) (l : list A) :
  slice_from step wait l = slice_from step 0 (skipn wait l).
Proof.
  revert l. induction wait as [|w IH]; intros l; [reflexivity |].
  destruct l as [|x l]; [reflexivity |]. cbn [slice_from skipn]. apply IH.
Qed.

(** On the row positions [a, a+1, ...] of [k] whole blocks of [p + 1] rows,
    the slice keeps the first position of every block. *)
Lemma slice_step_seq (p k a : nat) :
  slice_step (S p) (seq a (k * S p))
  = map (fun j => (a + j * S p)%nat) (seq 0 k).
Proof.
  unfold slice_step. revert a. induction k as [|k IH]; intros a.
  - reflexivity.
  - cbn [Nat.mul Nat.add seq slice_from].
    rewrite slice_from_skipn, skipn_seq.
    replace (S p - 1)%nat with p by lia.
    replace (p + k * S p - p)%nat with (k * S p)%nat by lia.
    rewrite IH. cbn [map]. f_equal; [lia |].
    rewrite <- seq_shift, map_map. apply map_ext. intros j. lia.
Qed.

Lemma firstn_seq_le (n a len : nat) :
  (n <= len)%nat -> firstn n (seq a len) = seq a n.
Proof.
  revert a len. induction n as [|n IH]; intros a len Hn; [reflexivity |].
  destruct len as [|len]; [lia |]. cbn [seq firstn]. rewrite IH by lia.
  reflexivity.
Qed.

Lemma head_map_seq {A : Type} (f : nat -> A) (n len : nat) :
  (n <= len)%nat -> head n (map f (seq 0 len)) = map f (seq 0 n).
Proof.
  intros Hn. unfold head. rewrite firstn_map, firstn_seq_le by exact Hn.
  reflexivity.
Qed.

Lemma tail_map_seq {A : Type} (f : nat -> A) (n len : nat) :
  (n <= len)%nat -> tail n (map f (seq 0 len)) = map f (seq (len - n) n).
Proof.
  intros Hn. unfold tail. rewrite length_map, length_seq, skipn_map, skipn_seq.
  do 2 f_equal. lia.
Qed.

Lemma slice_step_map_seq {A : Type} (f : nat -> A) (p k : nat) :
  slice_step (S p) (map f (seq 0 (k * S p)))
  = map (fun j => f (j * S p)%nat) (seq 0 k).
Proof.
  unfold slice_step. rewrite slice_from_map.
  fold (slice_step (S p) (seq 0 (k * S p))).
  rewrite slice_step_seq, map_map. reflexivity.
Qed.

(** ** Errors and the term *)


(** X2.  Whatever the arithmetic, a schedule returned for a term of zero or
    fewer years has no rows: the loop body never runs. *)
Theorem non_positive_term_has_no_rows {F : Type} `{Number F}
    (principal annual_rate : F) (years : Z) (s : DataFrame F) :
  (years <= 0)%Z ->
  create_amortization_schedule principal annual_rate years = Ok s ->
  Payment_Number s = [] /\ Payment_Amount s = []
  /\ Principal_Payment s = [] /\ Interest_Payment s = []
  /\ Remaining_Balance s = [].
Proof.
  intros Hy Hs.
  destruct (create_amortization_schedule_ok _ _ _ _ Hs)
    as (M & r & _ & _ & ->).
  replace (Z.to_nat (years * 12)) with 0%nat by lia.
  repeat split.
Qed.

Lemma non_positive_term_has_no_rows_witness :
  (-1 <= 0)%Z
  /\ create_amortization_schedule 1200 0 (-1) = Ok (frame_of (loop_init 1200))
  /\ Payment_Number (frame_of (loop_init 1200)) = []
  /\ Remaining_Balance (frame_of (loop_init 1200)) = [].
Proof.
  assert (Hy : (-1 <= 0)%Z) by lia.
  assert (Hs : create_amortization_schedule 1200 0 (-1)
               = Ok (frame_of (loop_init 1200))) by (vm_compute; reflexivity).
  split; [exact Hy | split; [exact Hs |]].
  destruct (non_positive_term_has_no_rows 1200 0 (-1) _ Hy Hs)
    as (H1 & _ & _ & _ & H5).
  split; assumption.
Defined.

(** X3.  A term of zero years always raises [ZeroDivisionError], whatever
    the principal and the rate, in exact arithmetic and in binary64 (for
    every [float], infinities and NaN included): the zero-rate branch
    divides by [0 * 12], the annuity branch by [(1 + rate) ** 0 - 1]. *)
Theorem zero_term_always_raises :
  (forall principal annual_rate : Q,
     calculate_monthly_payment principal annual_rate 0
     = Raise ZeroDivisionError
     /\ create_amortization_schedule principal annual_rate 0
        = Raise ZeroDivisionError)
  /\ (forall principal annual_rate : float,
        calculate_monthly_payment principal annual_rate 0
        = Raise ZeroDivisionError
        /\ create_amortization_schedule principal annual_rate 0
           = Raise ZeroDivisionError).
Proof.
  split.
  - intros principal annual_rate.
    assert (HM : calculate_monthly_payment principal annual_rate 0
                 = Raise ZeroDivisionError).
    { destruct (monthly_rate_of_exact annual_rate) as (r & Hr & _).
      unfold calculate_monthly_payment. rewrite Hr. cbn [bind].
      cbn [is_zero truediv pow of_int add sub mul Q_Number Z.mul].
      destruct (Qeq_bool r 0); [reflexivity |].
      unfold Qpow. rewrite andb_false_r. cbn [bind]. reflexivity. }
    split; [exact HM |].
    unfold create_amortization_schedule. rewrite HM. reflexivity.
  - intros principal annual_rate.
    assert (HM : calculate_monthly_payment principal annual_rate 0
                 = Raise ZeroDivisionError).
    { unfold calculate_monthly_payment, monthly_rate_of.
      cbn [is_zero truediv pow of_int add sub mul float_Number Z.mul].
      change (float_of_int 100) with 100%float.
      change (float_of_int 12) with 12%float.
      change (float_of_int 1) with 1%float.
      change (float_of_int 0) with 0%float.
      unfold float_truediv, float_pow.
      change (PrimFloat.eqb 100 0) with false.
      change (PrimFloat.eqb 12 0) with false.
      change (PrimFloat.eqb 0 0) with true.
      cbn [bind Z.eqb].
      change (PrimFloat.sub 1 1) with 0%float.
      change (PrimFloat.eqb 0 0) with true.
      destruct (PrimFloat.eqb (annual_rate / 100 / 12) 0); reflexivity. }
    split; [exact HM |].
    unfold create_amortization_schedule. rewrite HM. reflexivity.
Qed.

(** ** A negative term *)

Lemma shrink_lt_1 (r : Q) (n : Z) :
  0 < r -> (n < 0)%Z -> 0 < (1 + r) ^ n < 1.
Proof.
  intros Hr Hn. split; [apply Qpower_0_lt; lra |].
  replace n with (- - n)%Z by lia. rewrite Qpower_opp.
  assert (Hg : 1 < (1 + r) ^ (- n)) by (apply growth_gt_1; [exact Hr | lia]).
  assert (H1 : 0 < 1) by reflexivity.
  assert (H2 : 0 < (1 + r) ^ (- n)) by lra.
  exact (proj1 (Qinv_lt_contravar 1 ((1 + r) ^ (- n)) H1 H2) Hg).
Qed.

(** X4.  In exact arithmetic, a negative term is not rejected: for a
    non-negative rate the payment is computed with the negative payment
    count and is negative for a positive principal, and the schedule is
    returned with no rows. *)
Theorem negative_term_is_accepted (principal annual_rate : Q) (years : Z) :
  0 <= annual_rate -> (years < 0)%Z ->
  exists monthly_payment,
    calculate_monthly_payment principal annual_rate years = Ok monthly_payment
    /\ create_amortization_schedule principal annual_rate years
       = Ok (frame_of (loop_init principal))
    /\ (0 < principal -> monthly_payment < 0).
Proof.
  intros Ha Hy.
  destruct (monthly_rate_of_exact annual_rate) as (r & Hr & Hreq).
  assert (Hr0 : 0 <= r).
  { rewrite Hreq.
    setoid_replace (annual_rate / 100 / 12) with (annual_rate * (1 # 1200))
      by field.
    lra. }
  assert (Hn : inject_Z (years * 12) < 0).
  { change 0 with (inject_Z 0). rewrite <- Zlt_Qlt. lia. }
  assert (HM : exists M,
             calculate_monthly_payment principal annual_rate years = Ok M
             /\ (0 < principal -> M < 0)).
  { unfold calculate_monthly_payment. rewrite Hr. cbn [bind].
    cbn [is_zero truediv pow of_int add sub mul Q_Number].
    destruct (Qeq_bool r 0) eqn:E.
    - rewrite Qtruediv_nonzero by lra.
      eexists. split; [reflexivity |]. intros HP.
      rewrite Qred_correct.
      assert (Hq : principal / inject_Z (years * 12) * inject_Z (years * 12)
                   == principal) by (field; lra).
      nra.
    - apply Qeq_bool_neq in E. assert (Hpos : 0 < r) by lra.
      destruct (shrink_lt_1 r (years * 12) Hpos ltac:(lia)) as [Hg0 Hg1].
      change (inject_Z 1) with 1.
      assert (Hbase : Qeq_bool (Qadd 1 r) 0 = false).
      { destruct (Qeq_bool (Qadd 1 r) 0) eqn:E0; [|reflexivity].
        apply Qeq_bool_eq in E0. unfold Qadd in E0.
        rewrite Qred_correct in E0. lra. }
      unfold Qpow. rewrite Hbase. cbn [andb bind].
      assert (HG : Qred (Qadd 1 r ^ (years * 12)) == (1 + r) ^ (years * 12)).
      { unfold Qadd. rewrite !Qred_correct. reflexivity. }
      rewrite Qtruediv_nonzero.
      2:{ unfold Qsub. rewrite Qred_correct, HG. lra. }
      eexists. split; [reflexivity |]. intros HP.
      unfold Qsub, Qmul, Qadd. rewrite !Qred_correct.
      set (G := (1 + r) ^ (years * 12)) in *.
      assert (Hq : principal * (r * G) / (G - 1) * (G - 1)
                   == principal * (r * G)) by (field; lra).
      assert (Hnum : 0 < principal * (r * G)).
      { apply Qmult_lt_0_compat; [exact HP |].
        apply Qmult_lt_0_compat; assumption. }
      nra. }
  destruct HM as (M & HM & Hneg).
  exists M. split; [exact HM | split; [| exact Hneg]].
  unfold create_amortization_schedule. rewrite HM, Hr. cbn [bind].
  rewrite (run_loop_to_nat M r principal).
  replace (Z.to_nat (years * 12)) with 0%nat by lia. reflexivity.
Qed.

Lemma negative_term_is_accepted_witness :
  0 <= 0 /\ (-1 < 0)%Z
  /\ exists monthly_payment,
       calculate_monthly_payment 1200 0 (-1) = Ok monthly_payment
       /\ create_amortization_schedule 1200 0 (-1)
          = Ok (frame_of (loop_init 1200))
       /\ (0 < 1200 -> monthly_payment < 0).
Proof.
  assert (Ha : 0 <= 0) by (unfold Qle; simpl; lia).
  assert (Hy : (-1 < 0)%Z) by lia.
  split; [exact Ha | split; [exact Hy |]].
  exact (negative_term_is_accepted 1200 0 (-1) Ha Hy).
Defined.

(** ** The payment *)

(** X5.  In exact arithmetic the payment is proportional to the principal:
    for a valid rate and term, a principal [k] times as large gives a
    payment [k] times as large. *)
Theorem payment_scales_with_principal
    (k principal annual_rate : Q) (years : Z) :
  0 <= annual_rate -> (1 <= years)%Z ->
  exists monthly_payment scaled_payment,
    calculate_monthly_payment principal annual_rate years = Ok monthly_payment
    /\ calculate_monthly_payment (k * principal) annual_rate years
       = Ok scaled_payment
    /\ scaled_payment == k * monthly_payment.
Proof.
  intros Ha Hy.
  destruct (calculate_monthly_payment_exact principal annual_rate years Ha Hy)
    as (M & r & Hr & _ & HM & Hz & Hp).
  destruct (calculate_monthly_payment_exact (k * principal) annual_rate years
              Ha Hy) as (M' & r' & Hr' & _ & HM' & Hz' & Hp').
  rewrite Hr in Hr'. injection Hr' as <-.
  exists M, M'. split; [exact HM | split; [exact HM' |]].
  destruct (Qeq_dec r 0) as [E|E].
  - rewrite (Hz E), (Hz' E). field.
    apply inject_Z_nonzero. lia.
  - destruct (Hp E) as [Hg Heq]. destruct (Hp' E) as [_ Heq'].
    rewrite Heq, Heq'. field. lra.
Qed.

Lemma payment_scales_with_principal_witness :
  0 <= 6 /\ (1 <= 1)%Z
  /\ exists monthly_payment scaled_payment,
       calculate_monthly_payment 1000 6 1 = Ok monthly_payment
       /\ calculate_monthly_payment (2 * 1000) 6 1 = Ok scaled_payment
       /\ scaled_payment == 2 * monthly_payment.
Proof.
  assert (Ha : 0 <= 6) by (unfold Qle; simpl; lia).
  assert (Hy : (1 <= 1)%Z) by lia.
  split; [exact Ha | split; [exact Hy |]].
  exact (payment_scales_with_principal 2 1000 6 1 Ha Hy).
Defined.

(** ** The shape of the schedule *)

(** X6.  In exact arithmetic, for a valid loan at a positive rate, every
    period pays a positive amount of principal and a positive amount of
    interest, and from each period to the next the principal portion grows
    and the interest portion shrinks. *)
Theorem portions_shift_from_interest_to_principal
    (principal annual_rate : Q) (years : Z) :
  0 < principal -> 0 < annual_rate -> (1 <= years)%Z ->
  exists s,
    create_amortization_schedule principal annual_rate years = Ok s
    /\ (forall i : nat,
          (i < length (Payment_Number s))%nat ->
          0 < nth i (Principal_Payment s) 0
          /\ 0 < nth i (Interest_Payment s) 0)
    /\ (forall i : nat,
          (S i < length (Payment_Number s))%nat ->
          nth i (Principal_Payment s) 0 < nth (S i) (Principal_Payment s) 0
          /\ nth (S i) (Interest_Payment s) 0 < nth i (Interest_Payment s) 0).
Proof.
  intros HP Ha Hy.
  assert (Ha' : 0 <= annual_rate) by lra.
  destruct (valid_schedule_exact principal annual_rate years Ha' Hy)
    as (M & r & s & _ & _ & Hreq & Hr & Hs & -> & Hz & Hp).
  pose proof (num_periods_pos years Hy) as HN.
  assert (Hpos : 0 < r).
  { rewrite Hreq.
    setoid_replace (annual_rate / 100 / 12) with (annual_rate * (1 # 1200))
      by field.
    lra. }
  eexists. split; [exact Hs |].
  rewrite Payment_Number_length. split.
  - intros i Hi.
    rewrite Principal_Payment_nth, Interest_Payment_nth by exact Hi.
    pose proof (portion_pos M r principal _ HP Hr HN Hz Hp i) as Hpp.
    pose proof (balance_pos M r principal _ HP Hr HN Hz Hp i Hi) as Hb.
    exact_ops. split; [exact Hpp |].
    apply Qmult_lt_0_compat; assumption.
  - intros i Hi.
    rewrite !Principal_Payment_nth, !Interest_Payment_nth by lia.
    pose proof (balance_decreasing M r principal _ HP Hr HN Hz Hp i) as Hd.
    exact_ops.
    generalize dependent (balance_after M r principal (S i)).
    generalize (balance_after M r principal i).
    intros b0 b1 Hd. split; nra.
Qed.

Lemma portions_shift_from_interest_to_principal_witness :
  0 < 1000 /\ 0 < 6 /\ (1 <= 1)%Z
  /\ exists s,
       create_amortization_schedule 1000 6 1 = Ok s
       /\ (forall i : nat,
             (i < length (Payment_Number s))%nat ->
             0 < nth i (Principal_Payment s) 0
             /\ 0 < nth i (Interest_Payment s) 0)
       /\ (forall i : nat,
             (S i < length (Payment_Number s))%nat ->
             nth i (Principal_Payment s) 0 < nth (S i) (Principal_Payment s) 0
             /\ nth (S i) (Interest_Payment s) 0
                < nth i (Interest_Payment s) 0).
Proof.
  assert (HP : 0 < 1000) by reflexivity.
  assert (Ha : 0 < 6) by reflexivity.
  assert (Hy : (1 <= 1)%Z) by lia.
  split; [exact HP | split; [exact Ha | split; [exact Hy |]]].
  exact (portions_shift_from_interest_to_principal 1000 6 1 HP Ha Hy).
Defined.

(** ** The recorded balance *)

Lemma max0_nonneg (x : Q) : 0 <= max0 x.
Proof.
  destruct (Qlt_le_dec 0 x) as [Hx|Hx].
  - rewrite max0_pos by exact Hx. lra.
  - rewrite max0_nonpos by exact Hx. lra.
Qed.

Lemma max0_of_nonneg (x : Q) : 0 <= x -> max0 x == x.
Proof.
  intros Hx. destruct (Qlt_le_dec 0 x) as [Hp|Hn].
  - rewrite max0_pos by exact Hp. reflexivity.
  - rewrite max0_nonpos by exact Hn. lra.
Qed.

(** X7.  In exact arithmetic no recorded remaining balance is negative,
    whatever the input: valid or not, a loan that would go below zero is
    recorded at zero. *)
Theorem recorded_balance_never_negative
    (principal annual_rate : Q) (years : Z) (s : DataFrame Q) :
  create_amortization_schedule principal annual_rate years = Ok s ->
  Forall (fun balance => 0 <= balance) (Remaining_Balance s).
Proof.
  intros Hs.
  destruct (create_amortization_schedule_ok _ _ _ _ Hs)
    as (M & r & _ & _ & ->).
  cbn [frame_of Remaining_Balance]. rewrite remaining_balances_spec.
  apply Forall_forall. intros x Hx. apply in_map_iff in Hx.
  destruct Hx as (k & <- & _). apply max0_nonneg.
Qed.

Lemma recorded_balance_never_negative_witness :
  exists s,
    create_amortization_schedule (-1200) 12 1 = Ok s
    /\ Forall (fun balance => 0 <= balance) (Remaining_Balance s).
Proof.
  eexists. split; [vm_compute; reflexivity |].
  apply (recorded_balance_never_negative (-1200) 12 1).
  vm_compute. reflexivity.
Defined.

(** X8.  In exact arithmetic, for a valid loan, the balance recorded after
    each payment is the principal less the principal portions paid so far:
    the clamp changes nothing. *)
Theorem recorded_balance_is_principal_less_paid
    (principal annual_rate : Q) (years : Z) :
  0 < principal -> 0 <= annual_rate -> (1 <= years)%Z ->
  exists s,
    create_amortization_schedule principal annual_rate years = Ok s
    /\ forall i : nat,
         (i < length (Payment_Number s))%nat ->
         nth i (Remaining_Balance s) 0
         == principal - Qsum (firstn (S i) (Principal_Payment s)).
Proof.
  intros HP Ha Hy.
  destruct (valid_schedule_exact principal annual_rate years Ha Hy)
    as (M & r & s & _ & _ & _ & Hr & Hs & -> & Hz & Hp).
  pose proof (num_periods_pos years Hy) as HN.
  eexists. split; [exact Hs |].
  rewrite Payment_Number_length. intros i Hi.
  rewrite Remaining_Balance_nth by exact Hi.
  cbn [frame_of Principal_Payment]. rewrite principal_payments_spec.
  fold (head (S i)
          (map (fun k => sub M (mul (balance_after M r principal k) r))
               (seq 0 (num_periods years)))).
  rewrite head_map_seq by lia. rewrite exact_principal_sum.
  assert (Hb : 0 <= balance_after M r principal (S i)).
  { destruct (Nat.eq_dec (S i) (num_periods years)) as [E|E].
    - rewrite E, (balance_final M r principal _ Hr HN Hz Hp). lra.
    - apply Qlt_le_weak.
      apply (balance_pos M r principal _ HP Hr HN Hz Hp). lia. }
  rewrite (max0_of_nonneg _ Hb). ring.
Qed.

Lemma recorded_balance_is_principal_less_paid_witness :
  0 < 1000 /\ 0 <= 6 /\ (1 <= 1)%Z
  /\ exists s,
       create_amortization_schedule 1000 6 1 = Ok s
       /\ forall i : nat,
            (i < length (Payment_Number s))%nat ->
            nth i (Remaining_Balance s) 0
            == 1000 - Qsum (firstn (S i) (Principal_Payment s)).
Proof.
  assert (HP : 0 < 1000) by reflexivity.
  assert (Ha : 0 <= 6) by (unfold Qle; simpl; lia).
  assert (Hy : (1 <= 1)%Z) by lia.
  split; [exact HP | split; [exact Ha | split; [exact Hy |]]].
  exact (recorded_balance_is_principal_less_paid 1000 6 1 HP Ha Hy).
Defined.

(** ** The summary statistics of the main script *)

Lemma Qsum_map_bounds (f : nat -> Q) (lo hi : Q) (n a : nat) :
  (forall k : nat, (a <= k < a + n)%nat -> lo <= f k <= hi) ->
  inject_Z (Z.of_nat n) * lo <= Qsum (map f (seq a n))
  <= inject_Z (Z.of_nat n) * hi.
Proof.
  revert a. induction n as [|n IH]; intros a Hf.
  - cbn [seq map Qsum fold_right Z.of_nat]. change (inject_Z 0) with 0. lra.
  - cbn [seq map Qsum fold_right]. fold (Qsum (map f (seq (S a) n))).
    assert (Hn : forall k : nat, (S a <= k < S a + n)%nat -> lo <= f k <= hi)
      by (intros k Hk; apply Hf; lia).
    specialize (IH (S a) Hn).
    assert (Ha : lo <= f a <= hi) by (apply Hf; lia).
    rewrite Nat2Z.inj_succ. unfold Z.succ. rewrite inject_Z_plus.
    change (inject_Z 1) with 1. lra.
Qed.

(** Every payment is split between the two portions, so the columns add up
    to the payments made. *)
Lemma portions_total (M r P : Q) (n : nat) :
  Qsum (map (fun k => sub M (mul (balance_after M r P k) r)) (seq 0 n))
  + Qsum (map (fun k => mul (balance_after M r P k) r) (seq 0 n))
  == inject_Z (Z.of_nat n) * M.
Proof.
  induction n as [|n IH].
  - simpl. ring.
  - rewrite seq_S, !map_app, !Qsum_app. cbn [map Qsum fold_right Nat.add].
    rewrite Nat2Z.inj_succ. unfold Z.succ. rewrite inject_Z_plus.
    change (inject_Z 1) with 1.
    setoid_replace (inject_Z (Z.of_nat n) + 1) with (1 + inject_Z (Z.of_nat n))
      by ring.
    rewrite Qmult_plus_distr_l, <- IH. exact_ops. ring.
Qed.

(** For a valid loan the main calculation returns; its total interest is
    the sum of the interest portions. *)
Lemma main_calculation_exact
    (loan_principal annual_rate : Q) (loan_years : Z) :
  0 < loan_principal -> 0 <= annual_rate -> (1 <= loan_years)%Z ->
  exists M r m,
    r == annual_rate / 100 / 12
    /\ 0 <= r
    /\ (r == 0 ->
        M == loan_principal / inject_Z (Z.of_nat (num_periods loan_years)))
    /\ (~ r == 0 ->
        1 < (1 + r) ^ Z.of_nat (num_periods loan_years)
        /\ M == loan_principal
                * (r * (1 + r) ^ Z.of_nat (num_periods loan_years))
                / ((1 + r) ^ Z.of_nat (num_periods loan_years) - 1))
    /\ main_calculation loan_principal annual_rate loan_years = Ok m
    /\ calculate_monthly_payment loan_principal annual_rate loan_years
       = Ok (Monthly_Payment m)
    /\ create_amortization_schedule loan_principal annual_rate loan_years
       = Ok (schedule m)
    /\ Interest_Payment (schedule m)
       = map (fun k => mul (balance_after M r loan_principal k) r)
             (seq 0 (num_periods loan_years))
    /\ Total_Interest m == Qsum (Interest_Payment (schedule m))
    /\ Interest_Principal m == Total_Interest m / loan_principal * 100.
Proof.
  intros HP Ha Hy.
  destruct (valid_schedule_exact loan_principal annual_rate loan_years Ha Hy)
    as (M & r & s & HM & _ & Hreq & Hr & Hs & -> & Hz & Hp).
  pose proof (num_periods_pos loan_years Hy) as HN.
  exists M, r. unfold main_calculation. rewrite HM, Hs. cbn [bind].
  cbn [truediv Q_Number]. rewrite Qtruediv_nonzero by lra.
  cbn [bind]. eexists.
  cbn [Monthly_Payment schedule Total_Interest Interest_Principal].
  repeat (split; [first [eassumption | reflexivity] |]).
  cbn [Monthly_Payment schedule Total_Interest Interest_Principal
       frame_of Interest_Payment].
  split; [apply interest_payments_spec |].
  split.
  - rewrite interest_payments_spec.
    pose proof (portions_total M r loan_principal (num_periods loan_years))
      as Htot.
    rewrite exact_principal_sum in Htot.
    rewrite (balance_final M r loan_principal _ Hr HN Hz Hp) in Htot.
    rewrite (num_periods_Z loan_years Hy) in Htot.
    unfold total_interest, total_payments. exact_ops.
    rewrite inject_Z_mult in Htot. change (inject_Z 12) with 12 in *. lra.
  - exact_ops. change (inject_Z 100) with 100. reflexivity.
Qed.

(** X9.  In exact arithmetic, for a valid loan the main calculation returns
    all its values, and the Total Interest it reports, computed as total
    paid minus principal, is the sum of the interest column of the
    schedule; Interest/Principal is that sum over the principal, in
    percent. *)
Theorem total_interest_is_interest_paid
    (loan_principal annual_rate : Q) (loan_years : Z) :
  0 < loan_principal -> 0 <= annual_rate -> (1 <= loan_years)%Z ->
  exists m,
    main_calculation loan_principal annual_rate loan_years = Ok m
    /\ calculate_monthly_payment loan_principal annual_rate loan_years
       = Ok (Monthly_Payment m)
    /\ create_amortization_schedule loan_principal annual_rate loan_years
       = Ok (schedule m)
    /\ Total_Interest m == Qsum (Interest_Payment (schedule m))
    /\ Interest_Principal m
       == Qsum (Interest_Payment (schedule m)) / loan_principal * 100.
Proof.
  intros HP Ha Hy.
  destruct (main_calculation_exact loan_principal annual_rate loan_years
              HP Ha Hy)
    as (M & r & m & _ & _ & _ & _ & Hm & HM & Hs & _ & Hint & Hpct).
  exists m. repeat (split; [assumption |]).
  rewrite Hpct, Hint. reflexivity.
Qed.

Lemma total_interest_is_interest_paid_witness :
  0 < 1000 /\ 0 <= 6 /\ (1 <= 1)%Z
  /\ exists m,
       main_calculation 1000 6 1 = Ok m
       /\ Total_Interest m == Qsum (Interest_Payment (schedule m)).
Proof.
  assert (HP : 0 < 1000) by reflexivity.
  assert (Ha : 0 <= 6) by (unfold Qle; simpl; lia).
  assert (Hy : (1 <= 1)%Z) by lia.
  split; [exact HP | split; [exact Ha | split; [exact Hy |]]].
  destruct (total_interest_is_interest_paid 1000 6 1 HP Ha Hy)
    as (m & Hm & _ & _ & Hint & _).
  exists m. split; [exact Hm | exact Hint].
Defined.

(** X10.  In exact arithmetic, for a valid loan the Total Interest is never
    negative and never more than simple interest on the whole principal
    for the whole term; it is zero at a zero rate and positive at a
    positive rate. *)
Theorem total_interest_bounds
    (loan_principal annual_rate : Q) (loan_years : Z) :
  0 < loan_principal -> 0 <= annual_rate -> (1 <= loan_years)%Z ->
  exists m,
    main_calculation loan_principal annual_rate loan_years = Ok m
    /\ 0 <= Total_Interest m
    /\ Total_Interest m
       <= inject_Z (loan_years * 12)
          * (loan_principal * (annual_rate / 100 / 12))
    /\ (annual_rate == 0 -> Total_Interest m == 0)
    /\ (0 < annual_rate -> 0 < Total_Interest m).
Proof.
  intros HP Ha Hy.
  destruct (main_calculation_exact loan_principal annual_rate loan_years
              HP Ha Hy)
    as (M & r & m & Hreq & Hr & Hz & Hp & Hm & _ & _ & Hcol & Hint & _).
  pose proof (num_periods_pos loan_years Hy) as HN.
  exists m. split; [exact Hm |].
  rewrite Hint, Hcol, <- Hreq, <- (num_periods_Z loan_years Hy).
  assert (Hterm : forall k : nat,
            (k < num_periods loan_years)%nat ->
            0 <= mul (balance_after M r loan_principal k) r
            <= loan_principal * r).
  { intros k Hk.
    pose proof (balance_pos M r loan_principal _ HP Hr HN Hz Hp k Hk) as Hb.
    pose proof (balance_antitone M r loan_principal _ HP Hr HN Hz Hp 0 k)
      as Hle.
    cbn [Nat.add] in Hle. change (balance_after M r loan_principal 0)
      with loan_principal in Hle.
    exact_ops. split; nra. }
  destruct (Qsum_map_bounds
              (fun k => mul (balance_after M r loan_principal k) r)
              0 (loan_principal * r) (num_periods loan_years) 0)
    as [Hlo Hhi]; [intros k Hk; apply Hterm; lia |].
  split; [lra | split; [exact Hhi | split]].
  - intros Ha0.
    assert (Hr0 : r == 0) by (rewrite Hreq, Ha0; reflexivity).
    rewrite Hr0 in Hhi. lra.
  - intros Hapos.
    assert (Hrpos : 0 < r).
    { rewrite Hreq.
      setoid_replace (annual_rate / 100 / 12) with (annual_rate * (1 # 1200))
        by field.
      lra. }
    destruct (num_periods loan_years) as [|n] eqn:En; [lia |].
    cbn [seq map Qsum fold_right].
    fold (Qsum (map (fun k => mul (balance_after M r loan_principal k) r)
                    (seq 1 n))).
    destruct (Qsum_map_bounds
                (fun k => mul (balance_after M r loan_principal k) r)
                0 (loan_principal * r) n 1)
      as [Hlo' _]; [intros k Hk; apply Hterm; lia |].
    change (balance_after M r loan_principal 0) with loan_principal.
    exact_ops.
    assert (0 < loan_principal * r) by (apply Qmult_lt_0_compat; assumption).
    lra.
Qed.

Lemma total_interest_bounds_witness :
  0 < 1000 /\ 0 <= 6 /\ (1 <= 1)%Z
  /\ exists m,
       main_calculation 1000 6 1 = Ok m
       /\ 0 <= Total_Interest m
       /\ Total_Interest m <= inject_Z (1 * 12) * (1000 * (6 / 100 / 12)).
Proof.
  assert (HP : 0 < 1000) by reflexivity.
  assert (Ha : 0 <= 6) by (unfold Qle; simpl; lia).
  assert (Hy : (1 <= 1)%Z) by lia.
  split; [exact HP | split; [exact Ha | split; [exact Hy |]]].
  destruct (total_interest_bounds 1000 6 1 HP Ha Hy)
    as (m & Hm & Hlo & Hhi & _).
  exists m. split; [exact Hm | split; [exact Hlo | exact Hhi]].
Defined.

(** X11.  In exact arithmetic a principal of zero passes the payment
    calculation (the payment is zero) and the schedule, and then stops the
    main calculation: the Interest/Principal ratio divides by the
    principal and raises [ZeroDivisionError]. *)
Theorem zero_principal_stops_main_calculation
    (loan_principal annual_rate : Q) (loan_years : Z) :
  loan_principal == 0 -> 0 <= annual_rate -> (1 <= loan_years)%Z ->
  (exists monthly_payment,
     calculate_monthly_payment loan_principal annual_rate loan_years
     = Ok monthly_payment
     /\ monthly_payment == 0)
  /\ (exists s,
        create_amortization_schedule loan_principal annual_rate loan_years
        = Ok s)
  /\ main_calculation loan_principal annual_rate loan_years
     = Raise ZeroDivisionError.
Proof.
  intros HP Ha Hy.
  destruct (valid_schedule_exact loan_principal annual_rate loan_years Ha Hy)
    as (M & r & s & HM & _ & _ & Hr & Hs & _ & Hz & Hp).
  split; [| split].
  - exists M. split; [exact HM |].
    destruct (Qeq_dec r 0) as [E|E].
    + rewrite (Hz E), HP. field.
      apply inject_Z_nonzero. pose proof (num_periods_pos loan_years Hy). lia.
    + destruct (Hp E) as [Hg ->]. rewrite HP. field. lra.
  - exists s. exact Hs.
  - unfold main_calculation. rewrite HM, Hs. cbn [bind].
    cbn [truediv Q_Number]. rewrite Qtruediv_zero by exact HP. reflexivity.
Qed.

Lemma zero_principal_stops_main_calculation_witness :
  0 == 0 /\ 0 <= 6 /\ (1 <= 1)%Z
  /\ main_calculation 0 6 1 = Raise ZeroDivisionError.
Proof.
  assert (HP : 0 == 0) by reflexivity.
  assert (Ha : 0 <= 6) by (unfold Qle; simpl; lia).
  assert (Hy : (1 <= 1)%Z) by lia.
  split; [exact HP | split; [exact Ha | split; [exact Hy |]]].
  exact (proj2 (proj2 (zero_principal_stops_main_calculation 0 6 1 HP Ha Hy))).
Defined.

(** ** The views of the schedule *)

Lemma term_in_months (years : Z) :
  Z.to_nat (years * 12) = (Z.to_nat years * 12)%nat.
Proof.
  destruct (Z_le_gt_dec 0 years) as [Hy|Hy]; lia.
Qed.

(** X12.  Whatever the arithmetic and the formatting, for a schedule of at
    least one year the view "First 12 Months" shows the payments 1 to 12
    and the view "Last 12 Months" the last twelve, [n - 11] to [n] for a
    schedule of [n] payments, each row with its own formatted balance. *)
Theorem first_and_last_12_months {F : Type} `{Number F}
    (fmt : F -> string) (principal annual_rate : F) (years : Z)
    (s : DataFrame F) :
  (1 <= years)%Z ->
  create_amortization_schedule principal annual_rate years = Ok s ->
  (forall i : nat,
     (i < 12)%nat ->
     nth i (Payment_Number
              (displayed_rows "First 12 Months" (display_schedule fmt s))) 0%Z
     = (Z.of_nat i + 1)%Z
     /\ nth i (Remaining_Balance
                 (displayed_rows "First 12 Months" (display_schedule fmt s)))
            EmptyString
        = fmt (nth i (Remaining_Balance s) (of_int 0)))
  /\ (forall i : nat,
        (i < 12)%nat ->
        nth i (Payment_Number
                 (displayed_rows "Last 12 Months" (display_schedule fmt s)))
            0%Z
        = (years * 12 - 11 + Z.of_nat i)%Z
        /\ nth i (Remaining_Balance
                    (displayed_rows "Last 12 Months"
                                    (display_schedule fmt s)))
               EmptyString
           = fmt (nth (Z.to_nat (years * 12) - 12 + i)
                      (Remaining_Balance s) (of_int 0)))
  /\ length (Payment_Number
               (displayed_rows "First 12 Months" (display_schedule fmt s)))
     = 12%nat
  /\ length (Payment_Number
               (displayed_rows "Last 12 Months" (display_schedule fmt s)))
     = 12%nat.
Proof.
  intros Hy Hs.
  destruct (create_amortization_schedule_ok _ _ _ _ Hs)
    as (M & r & _ & _ & ->).
  set (n := Z.to_nat (years * 12)).
  assert (Hn : (12 <= n)%nat) by (unfold n; lia).
  change (displayed_rows "First 12 Months"
            (display_schedule fmt (frame_of (run_loop M r principal (Z.of_nat n)))))
    with (select_rows (fun A => head 12)
            (display_schedule fmt (frame_of (run_loop M r principal (Z.of_nat n))))).
  change (displayed_rows "Last 12 Months"
            (display_schedule fmt (frame_of (run_loop M r principal (Z.of_nat n)))))
    with (select_rows (fun A => tail 12)
            (display_schedule fmt (frame_of (run_loop M r principal (Z.of_nat n))))).
  cbn [select_rows display_schedule frame_of Payment_Number Remaining_Balance].
  rewrite payment_numbers_spec, remaining_balances_spec, map_map.
  rewrite !head_map_seq, !tail_map_seq by exact Hn.
  rewrite !length_map, !length_seq.
  repeat split.
  - rewrite (nth_map_seq (fun k => Z.of_nat (S k)) 12 i 0%Z) by assumption. lia.
  - rewrite (nth_map_seq
               (fun k => fmt (max0 (balance_after M r principal (S k))))
               12 i EmptyString) by assumption.
    rewrite (nth_map_seq (fun k => max0 (balance_after M r principal (S k)))
               n i (of_int 0)) by lia.
    reflexivity.
  - rewrite (nth_indep _ 0%Z (Z.of_nat (S 0)))
      by (rewrite length_map, length_seq; assumption).
    rewrite (map_nth (fun k => Z.of_nat (S k))), seq_nth by assumption.
    unfold n. lia.
  - rewrite (nth_indep _ EmptyString
               (fmt (max0 (balance_after M r principal (S 0)))))
      by (rewrite length_map, length_seq; assumption).
    rewrite (map_nth (fun k => fmt (max0 (balance_after M r principal (S k))))),
      seq_nth by assumption.
    rewrite (nth_map_seq (fun k => max0 (balance_after M r principal (S k)))
               n (n - 12 + i) (of_int 0)) by lia.
    reflexivity.
Qed.

Lemma first_and_last_12_months_witness :
  (1 <= 1)%Z
  /\ exists s,
       create_amortization_schedule 1200 0 1 = Ok s
       /\ length (Payment_Number
                    (displayed_rows "First 12 Months"
                       (display_schedule (fun _ : Q => EmptyString) s)))
          = 12%nat
       /\ length (Payment_Number
                    (displayed_rows "Last 12 Months"
                       (display_schedule (fun _ : Q => EmptyString) s)))
          = 12%nat.
Proof.
  assert (Hy : (1 <= 1)%Z) by lia.
  split; [exact Hy |].
  eexists. split; [vm_compute; reflexivity |].
  refine (proj2 (proj2 (first_and_last_12_months (F:=Q)
                          (fun _ => EmptyString) 1200 0 1 _ Hy _))).
  vm_compute. reflexivity.
Defined.

(** X13.  Whatever the arithmetic and the formatting, the view "Every 12th
    Payment" of a schedule of [years] years has [years] rows, and its
    [j]-th row (from 0) is payment [12 * j + 1] with that payment's
    formatted balance: the first payment of each year, never the twelfth. *)
Theorem every_12th_payment_view {F : Type} `{Number F}
    (fmt : F -> string) (principal annual_rate : F) (years : Z)
    (s : DataFrame F) :
  (1 <= years)%Z ->
  create_amortization_schedule principal annual_rate years = Ok s ->
  Z.of_nat (length (Payment_Number
                      (displayed_rows "Every 12th Payment"
                                      (display_schedule fmt s))))
  = years
  /\ forall j : nat,
       (Z.of_nat j < years)%Z ->
       nth j (Payment_Number
                (displayed_rows "Every 12th Payment"
                                (display_schedule fmt s))) 0%Z
       = (12 * Z.of_nat j + 1)%Z
       /\ nth j (Remaining_Balance
                   (displayed_rows "Every 12th Payment"
                                   (display_schedule fmt s))) EmptyString
          = fmt (nth (12 * j) (Remaining_Balance s) (of_int 0)).
Proof.
  intros Hy Hs.
  destruct (create_amortization_schedule_ok _ _ _ _ Hs)
    as (M & r & _ & _ & ->).
  rewrite term_in_months. set (k := Z.to_nat years).
  change (displayed_rows "Every 12th Payment"
            (display_schedule fmt
               (frame_of (run_loop M r principal (Z.of_nat (k * 12))))))
    with (select_rows (fun A => slice_step 12)
            (display_schedule fmt
               (frame_of (run_loop M r principal (Z.of_nat (k * 12)))))).
  cbn [select_rows display_schedule frame_of Payment_Number Remaining_Balance].
  rewrite payment_numbers_spec, remaining_balances_spec, map_map.
  rewrite !(slice_step_map_seq _ 11 k).
  rewrite length_map, length_seq.
  split; [unfold k; lia |].
  intros j Hj. assert (Hjk : (j < k)%nat) by (unfold k; lia).
  rewrite (nth_map_seq (fun j0 => Z.of_nat (S (j0 * 12))) k j 0%Z) by exact Hjk.
  rewrite (nth_map_seq
             (fun j0 => fmt (max0 (balance_after M r principal (S (j0 * 12)))))
             k j EmptyString) by exact Hjk.
  rewrite (nth_map_seq (fun i => max0 (balance_after M r principal (S i)))
             (k * 12) (12 * j) (of_int 0)) by lia.
  split; [lia |]. do 3 f_equal. lia.
Qed.

Lemma every_12th_payment_view_witness :
  (1 <= 2)%Z
  /\ exists s,
       create_amortization_schedule 2400 0 2 = Ok s
       /\ Payment_Number
            (displayed_rows "Every 12th Payment"
               (display_schedule (fun _ : Q => EmptyString) s))
          = [1%Z; 13%Z]
       /\ Z.of_nat (length (Payment_Number
                      (displayed_rows "Every 12th Payment"
                         (display_schedule (fun _ : Q => EmptyString) s))))
          = 2%Z.
Proof.
  assert (Hy : (1 <= 2)%Z) by lia.
  split; [exact Hy |].
  eexists. split; [vm_compute; reflexivity |].
  split; [vm_compute; reflexivity |].
  refine (proj1 (every_12th_payment_view (F:=Q)
                   (fun _ => EmptyString) 2400 0 2 _ Hy _)).
  vm_compute. reflexivity.
Defined.

(** ** The payment as a function of the rate and of the term *)

Lemma annuity_factor_pos (q : Q) (n : nat) :
  0 < q -> (0 < n)%nat -> 0 < annuity_factor q n.
Proof.
  intros Hq Hn. destruct n as [|n]; [lia |]. clear Hn.
  induction n as [|n IH].
  - cbn [annuity_factor]. apply Qlt_shift_div_l; lra.
  - change (annuity_factor q (S (S n)))
      with ((annuity_factor q (S n) + 1) / q).
    apply Qlt_shift_div_l; lra.
Qed.

Lemma annuity_factor_nonneg (q : Q) (n : nat) :
  0 < q -> 0 <= annuity_factor q n.
Proof.
  intros Hq. destruct n as [|n]; [cbn; lra |].
  apply Qlt_le_weak, annuity_factor_pos; [exact Hq | lia].
Qed.

(** The factor, scaled by the growth over [n] periods and by the rate, is
    the growth less one. *)
Lemma annuity_factor_closed (r : Q) (n : nat) :
  0 <= r ->
  annuity_factor (1 + r) n * (1 + r) ^ Z.of_nat n * r
  == (1 + r) ^ Z.of_nat n - 1.
Proof.
  intros Hr. induction n as [|n IH].
  - cbn. ring.
  - rewrite Qpower_succ. cbn [annuity_factor].
    set (g := (1 + r) ^ Z.of_nat n) in *.
    set (A := annuity_factor (1 + r) n) in *.
    setoid_replace ((A + 1) / (1 + r) * ((1 + r) * g) * r)
      with (A * g * r + g * r) by (field; lra).
    rewrite IH. ring.
Qed.

Lemma annuity_factor_zero_rate (n : nat) :
  annuity_factor 1 n == inject_Z (Z.of_nat n).
Proof.
  induction n as [|n IH].
  - reflexivity.
  - cbn [annuity_factor]. rewrite IH, Nat2Z.inj_succ. unfold Z.succ.
    rewrite inject_Z_plus. field.
Qed.

Lemma annuity_factor_comp (q q' : Q) (n : nat) :
  q == q' -> annuity_factor q n == annuity_factor q' n.
Proof.
  intros E. induction n as [|n IH]; [reflexivity |].
  cbn [annuity_factor]. rewrite IH, E. reflexivity.
Qed.

(** The payment is the principal over the annuity factor, in both
    branches of [calculate_monthly_payment]. *)
Lemma payment_times_annuity_factor (M r P : Q) (N : nat) :
  0 <= r -> (0 < N)%nat ->
  (r == 0 -> M == P / inject_Z (Z.of_nat N)) ->
  (~ r == 0 ->
   1 < (1 + r) ^ Z.of_nat N
   /\ M == P * (r * (1 + r) ^ Z.of_nat N) / ((1 + r) ^ Z.of_nat N - 1)) ->
  M * annuity_factor (1 + r) N == P.
Proof.
  intros Hr HN Hz Hp.
  destruct (Qeq_dec r 0) as [E|E].
  - assert (Eq : 1 + r == 1) by (rewrite E; ring).
    rewrite (annuity_factor_comp _ _ N Eq), annuity_factor_zero_rate, (Hz E).
    field. apply inject_Z_nonzero. lia.
  - destruct (Hp E) as [Hg HM].
    pose proof (annuity_factor_closed r N Hr) as Hc.
    set (g := (1 + r) ^ Z.of_nat N) in *.
    set (A := annuity_factor (1 + r) N) in *.
    assert (HA : A == (g - 1) / (g * r)).
    { rewrite <- Hc. field. split; lra. }
    rewrite HM, HA. field. repeat split; lra.
Qed.

Lemma quotient_facts (a q : Q) :
  0 < q -> 0 <= a -> a / q * q == a /\ 0 <= a / q.
Proof.
  intros Hq Ha. split; [field; lra |].
  apply Qle_shift_div_l; [exact Hq | lra].
Qed.

Lemma annuity_factor_decreases_with_rate (q1 q2 : Q) (n : nat) :
  0 < q1 -> q1 < q2 -> (0 < n)%nat ->
  annuity_factor q2 n < annuity_factor q1 n.
Proof.
  intros Hq1 Hq Hn.
  assert (Hle : forall k, annuity_factor q2 k <= annuity_factor q1 k).
  { induction k as [|k IH]; [cbn; lra |].
    cbn [annuity_factor].
    pose proof (annuity_factor_nonneg q2 k ltac:(lra)) as H2.
    pose proof (annuity_factor_nonneg q1 k Hq1) as H1.
    destruct (quotient_facts (annuity_factor q2 k + 1) q2) as [Hx Hx0];
      [lra | lra |].
    destruct (quotient_facts (annuity_factor q1 k + 1) q1) as [Hy Hy0];
      [lra | lra |].
    generalize dependent ((annuity_factor q2 k + 1) / q2).
    generalize dependent ((annuity_factor q1 k + 1) / q1).
    intros y Hy Hy0 x Hx Hx0. nra. }
  destruct n as [|n]; [lia |]. cbn [annuity_factor].
  pose proof (Hle n) as Hn'.
  pose proof (annuity_factor_nonneg q2 n ltac:(lra)) as H2.
  pose proof (annuity_factor_nonneg q1 n Hq1) as H1.
  destruct (quotient_facts (annuity_factor q2 n + 1) q2) as [Hx Hx0];
    [lra | lra |].
  destruct (quotient_facts (annuity_factor q1 n + 1) q1) as [Hy Hy0];
    [lra | lra |].
  generalize dependent ((annuity_factor q2 n + 1) / q2).
  generalize dependent ((annuity_factor q1 n + 1) / q1).
  intros y Hy Hy0 x Hx Hx0.
  assert (Hypos : 0 < y) by nra.
  nra.
Qed.

Lemma annuity_factor_grows_with_term (q : Q) (n m : nat) :
  0 < q -> (n < m)%nat -> annuity_factor q n < annuity_factor q m.
Proof.
  intros Hq Hnm.
  assert (Hstep : forall k, annuity_factor q k < annuity_factor q (S k)).
  { induction k as [|k IH].
    - cbn [annuity_factor]. apply Qlt_shift_div_l; lra.
    - change (annuity_factor q (S (S k)))
        with ((annuity_factor q (S k) + 1) / q).
      change (annuity_factor q (S k)) with ((annuity_factor q k + 1) / q) at 1.
      apply Qlt_shift_div_l; [exact Hq |].
      setoid_replace ((annuity_factor q k + 1) / q * q)
        with (annuity_factor q k + 1) by (field; lra).
      lra. }
  induction Hnm as [|m Hnm IH]; [apply Hstep |].
  pose proof (Hstep m). lra.
Qed.

(** X14.  In exact arithmetic the payment grows with the rate: for the same
    positive principal and the same valid term, a higher annual rate gives
    a strictly higher monthly payment. *)
Theorem payment_increases_with_rate
    (principal rate_1 rate_2 : Q) (years : Z) :
  0 < principal -> 0 <= rate_1 -> rate_1 < rate_2 -> (1 <= years)%Z ->
  exists payment_1 payment_2,
    calculate_monthly_payment principal rate_1 years = Ok payment_1
    /\ calculate_monthly_payment principal rate_2 years = Ok payment_2
    /\ payment_1 < payment_2.
Proof.
  intros HP Ha1 Ha Hy.
  assert (Ha2 : 0 <= rate_2) by lra.
  destruct (valid_schedule_exact principal rate_1 years Ha1 Hy)
    as (M1 & r1 & _ & HM1 & _ & Hreq1 & Hr1 & _ & _ & Hz1 & Hp1).
  destruct (valid_schedule_exact principal rate_2 years Ha2 Hy)
    as (M2 & r2 & _ & HM2 & _ & Hreq2 & Hr2 & _ & _ & Hz2 & Hp2).
  pose proof (num_periods_pos years Hy) as HN.
  exists M1, M2. split; [exact HM1 | split; [exact HM2 |]].
  assert (Hr : r1 < r2).
  { rewrite Hreq1, Hreq2.
    setoid_replace (rate_1 / 100 / 12) with (rate_1 * (1 # 1200)) by field.
    setoid_replace (rate_2 / 100 / 12) with (rate_2 * (1 # 1200)) by field.
    lra. }
  pose proof (payment_times_annuity_factor M1 r1 principal _ Hr1 HN Hz1 Hp1)
    as H1.
  pose proof (payment_times_annuity_factor M2 r2 principal _ Hr2 HN Hz2 Hp2)
    as H2.
  pose proof (annuity_factor_decreases_with_rate (1 + r1) (1 + r2)
                (num_periods years) ltac:(lra) ltac:(lra) HN) as Hlt.
  pose proof (annuity_factor_pos (1 + r2) (num_periods years) ltac:(lra) HN)
    as Hpos.
  generalize dependent (annuity_factor (1 + r1) (num_periods years)).
  generalize dependent (annuity_factor (1 + r2) (num_periods years)).
  intros A2 H2 Hpos A1 H1 Hlt.
  assert (HM2pos : 0 < M2) by nra.
  nra.
Qed.

Lemma payment_increases_with_rate_witness :
  0 < 1000 /\ 0 <= 0 /\ 0 < 6 /\ (1 <= 1)%Z
  /\ exists payment_1 payment_2,
       calculate_monthly_payment 1000 0 1 = Ok payment_1
       /\ calculate_monthly_payment 1000 6 1 = Ok payment_2
       /\ payment_1 < payment_2.
Proof.
  assert (HP : 0 < 1000) by reflexivity.
  assert (Ha1 : 0 <= 0) by (unfold Qle; simpl; lia).
  assert (Ha : 0 < 6) by reflexivity.
  assert (Hy : (1 <= 1)%Z) by lia.
  split; [exact HP | split; [exact Ha1 | split; [exact Ha | split; [exact Hy |]]]].
  exact (payment_increases_with_rate 1000 0 6 1 HP Ha1 Ha Hy).
Defined.

(** X15.  In exact arithmetic the payment shrinks as the term grows: for
    the same positive principal and the same valid rate, a longer term
    gives a strictly lower monthly payment. *)
Theorem payment_decreases_with_term
    (principal annual_rate : Q) (years_1 years_2 : Z) :
  0 < principal -> 0 <= annual_rate ->
  (1 <= years_1)%Z -> (years_1 < years_2)%Z ->
  exists payment_1 payment_2,
    calculate_monthly_payment principal annual_rate years_1 = Ok payment_1
    /\ calculate_monthly_payment principal annual_rate years_2 = Ok payment_2
    /\ payment_2 < payment_1.
Proof.
  intros HP Ha Hy1 Hy.
  assert (Hy2 : (1 <= years_2)%Z) by lia.
  destruct (valid_schedule_exact principal annual_rate years_1 Ha Hy1)
    as (M1 & r & _ & HM1 & Hrate & _ & Hr & _ & _ & Hz1 & Hp1).
  destruct (valid_schedule_exact principal annual_rate years_2 Ha Hy2)
    as (M2 & r' & _ & HM2 & Hrate' & _ & _ & _ & _ & Hz2 & Hp2).
  rewrite Hrate in Hrate'. injection Hrate' as <-.
  pose proof (num_periods_pos years_1 Hy1) as HN1.
  pose proof (num_periods_pos years_2 Hy2) as HN2.
  exists M1, M2. split; [exact HM1 | split; [exact HM2 |]].
  pose proof (payment_times_annuity_factor M1 r principal _ Hr HN1 Hz1 Hp1)
    as H1.
  pose proof (payment_times_annuity_factor M2 r principal _ Hr HN2 Hz2 Hp2)
    as H2.
  assert (Hlt : annuity_factor (1 + r) (num_periods years_1)
                < annuity_factor (1 + r) (num_periods years_2)).
  { apply annuity_factor_grows_with_term; [lra | unfold num_periods; lia]. }
  pose proof (annuity_factor_pos (1 + r) (num_periods years_1) ltac:(lra) HN1)
    as Hpos.
  generalize dependent (annuity_factor (1 + r) (num_periods years_1)).
  generalize dependent (annuity_factor (1 + r) (num_periods years_2)).
  intros A2 H2 A1 H1 Hlt Hpos.
  assert (HM1pos : 0 < M1) by nra.
  assert (HM2pos : 0 < M2) by nra.
  nra.
Qed.

Lemma payment_decreases_with_term_witness :
  0 < 1000 /\ 0 <= 6 /\ (1 <= 1)%Z /\ (1 < 2)%Z
  /\ exists payment_1 payment_2,
       calculate_monthly_payment 1000 6 1 = Ok payment_1
       /\ calculate_monthly_payment 1000 6 2 = Ok payment_2
       /\ payment_2 < payment_1.
Proof.
  assert (HP : 0 < 1000) by reflexivity.
  assert (Ha : 0 <= 6) by (unfold Qle; simpl; lia).
  assert (Hy1 : (1 <= 1)%Z) by lia.
  assert (Hy : (1 < 2)%Z) by lia.
  split; [exact HP | split; [exact Ha | split; [exact Hy1 | split; [exact Hy |]]]].
  exact (payment_decreases_with_term 1000 6 1 2 HP Ha Hy1 Hy).
Defined.

(** ** The displayed amounts *)

Local Close Scope Q_scope.

Lemma uint_of_chars_of_uint (d : Decimal.uint) :
  uint_of_chars (chars_of_uint d) = Some d.
Proof.
  induction d; cbn [chars_of_uint uint_of_chars]; try rewrite IHd; reflexivity.
Qed.

Lemma N_of_chars_digits (n : N) :
  N_of_chars (chars_of_uint (N.to_uint n)) = Some n.
Proof.
  unfold N_of_chars. rewrite uint_of_chars_of_uint. cbn [option_map].
  rewrite DecimalN.Unsigned.of_to. reflexivity.
Qed.

Lemma chars_of_uint_no_comma (d : Decimal.uint) :
  ungroup (chars_of_uint d) = chars_of_uint d.
Proof.
  unfold ungroup.
  induction d; cbn [chars_of_uint filter]; try rewrite IHd; reflexivity.
Qed.

Lemma split_sign_chars (negative : bool) (d : Decimal.uint) :
  split_sign (sign_chars negative ++ chars_of_uint d)
  = (negative, chars_of_uint d).
Proof.
  destruct negative; [reflexivity |]. destruct d; reflexivity.
Qed.

Lemma ungroup_sign_chars (negative : bool) :
  ungroup (sign_chars negative) = sign_chars negative.
Proof. destruct negative; reflexivity. Qed.

Lemma ungroup_app (l1 l2 : list ascii) :
  ungroup (l1 ++ l2) = ungroup l1 ++ ungroup l2.
Proof. apply filter_app. Qed.

Lemma ungroup_rev (l : list ascii) : ungroup (rev l) = rev (ungroup l).
Proof.
  induction l as [|c l IH]; [reflexivity |].
  cbn [rev]. rewrite ungroup_app, IH. unfold ungroup. cbn [filter].
  destruct (negb (Ascii.eqb c ",")); cbn [rev app];
    [reflexivity | apply app_nil_r].
Qed.

Lemma ungroup_group_rev (count : nat) (l : list ascii) :
  ungroup (group_rev count l) = ungroup l.
Proof.
  revert count. induction l as [|c l IH]; intros count; [reflexivity |].
  cbn [group_rev]. destruct (Nat.eqb count 3).
  - change (ungroup (","%char :: c :: group_rev 1 l))
      with (ungroup (c :: group_rev 1 l)).
    unfold ungroup in *. cbn [filter]. rewrite IH. reflexivity.
  - unfold ungroup in *. cbn [filter]. rewrite IH. reflexivity.
Qed.

(** Removing the separators gives the digits back. *)
Lemma ungroup_group (l : list ascii) : ungroup (group l) = ungroup l.
Proof.
  unfold group. rewrite ungroup_rev, ungroup_group_rev, ungroup_rev, rev_involutive.
  reflexivity.
Qed.

Lemma digit_pair (k : N) :
  (k < 100)%N -> N_of_chars [digit (k / 10); digit (k mod 10)] = Some k.
Proof.
  intros Hk.
  assert (Hcases : exists a b, (a < 10)%nat /\ (b < 10)%nat
                               /\ k = N.of_nat (a * 10 + b)).
  { exists (N.to_nat (k / 10)), (N.to_nat (k mod 10)).
    pose proof (N.div_mod k 10 ltac:(discriminate)).
    pose proof (N.mod_lt k 10 ltac:(discriminate)).
    assert ((k / 10 < 10)%N) by (apply N.Div0.div_lt_upper_bound; lia).
    repeat split; lia. }
  destruct Hcases as (a & b & Ha & Hb & ->).
  do 10 (destruct a as [|a]; [do 10 (destruct b as [|b]; [reflexivity |]); lia |]).
  lia.
Qed.

Lemma fixed_2_parses (negative : bool) (cents : N) :
  parse_currency (string_of_list_ascii ("$"%char :: fixed_2 negative cents))
  = Some (negative, cents).
Proof.
  unfold parse_currency. rewrite list_ascii_of_string_of_list_ascii.
  unfold fixed_2. rewrite app_assoc, rev_app_distr. cbn [rev app].
  rewrite rev_involutive, ungroup_app, ungroup_group, chars_of_uint_no_comma.
  rewrite ungroup_sign_chars, split_sign_chars. cbn [fst snd].
  rewrite N_of_chars_digits.
  assert (Hfrac : N_of_chars [digit (cents mod 100 / 10); digit (cents mod 10)]
                  = Some (cents mod 100)%N).
  { replace (cents mod 10)%N with ((cents mod 100) mod 10)%N.
    - apply digit_pair. apply N.mod_lt. discriminate.
    - change 100%N with (10 * 10)%N.
      rewrite N.Div0.mod_mul_r, N.Div0.add_mod, N.Div0.mul_mod.
      rewrite N.Div0.mod_same, N.mul_0_l, N.Div0.mod_0_l, N.add_0_r.
      rewrite !N.Div0.mod_mod. reflexivity. }
  rewrite Hfrac. do 2 f_equal.
  pose proof (N.div_mod cents 100 ltac:(discriminate)). lia.
Qed.

Lemma round_half_even_close (num den : N) :
  (0 < den)%N ->
  (2 * Z.abs (Z.of_N (round_half_even num den) * Z.of_N den - Z.of_N num)
   <= Z.of_N den)%Z.
Proof.
  intros Hden. unfold round_half_even.
  pose proof (N.div_mod num den ltac:(lia)) as Hdm.
  pose proof (N.mod_lt num den ltac:(lia)) as Hlt.
  set (q := (num / den)%N) in *. set (r := (num mod den)%N) in *.
  destruct (N.compare_spec (2 * r) den) as [E|E|E];
    [destruct (N.even q) |..]; nia.
Qed.

Local Open Scope Q_scope.

(** The hundredths shown are within half a hundredth of the value. *)
Lemma cents_of_finite_close (m : positive) (e : Z) :
  - (1 # 200)
  <= inject_Z (Z.of_N (cents_of_finite m e)) / 100
     - inject_Z (Zpos m) * 2 ^ e
  <= 1 # 200.
Proof.
  destruct e as [|p|p]; unfold cents_of_finite.
  - rewrite N2Z.inj_mul, inject_Z_mult. cbn [Qpower].
    change (Z.of_N (N.pos m)) with (Zpos m). change (Z.of_N 100) with 100%Z.
    change (inject_Z 100) with 100.
    setoid_replace (inject_Z (Z.pos m) * 100 / 100 - inject_Z (Z.pos m) * 1)
      with 0 by field.
    split; discriminate.
  - rewrite !N2Z.inj_mul, N2Z.inj_pow, !inject_Z_mult.
    change (Z.of_N (N.pos m)) with (Zpos m). change (Z.of_N 100) with 100%Z.
    change (Z.of_N 2) with 2%Z. change (Z.of_N (N.pos p)) with (Zpos p).
    rewrite Zpower_Qpower by lia.
    change (inject_Z 100) with 100. change (inject_Z 2) with 2.
    setoid_replace (inject_Z (Z.pos m) * 2 ^ Z.pos p * 100 / 100
                    - inject_Z (Z.pos m) * 2 ^ Z.pos p)
      with 0 by field.
    split; discriminate.
  - pose proof (round_half_even_close (N.pos m * 100) (2 ^ N.pos p)) as Hc.
    assert (Hden : (0 < 2 ^ N.pos p)%N).
    { apply N.neq_0_lt_0, N.pow_nonzero. discriminate. }
    specialize (Hc Hden).
    set (c := round_half_even (N.pos m * 100) (2 ^ N.pos p)) in *.
    rewrite N2Z.inj_mul, N2Z.inj_pow in Hc.
    change (Z.of_N (N.pos m)) with (Zpos m) in Hc.
    change (Z.of_N 100) with 100%Z in Hc.
    change (Z.of_N 2) with 2%Z in Hc.
    change (Z.of_N (N.pos p)) with (Zpos p) in Hc.
    change (Z.neg p) with (- Z.pos p)%Z. rewrite Qpower_opp.
    rewrite <- (Zpower_Qpower 2 (Z.pos p)) by lia.
    assert (HD : (0 < 2 ^ Z.pos p)%Z) by (apply Z.pow_pos_nonneg; lia).
    set (D := (2 ^ Z.pos p)%Z) in *.
    assert (HDq : 0 < inject_Z D).
    { change 0 with (inject_Z 0). rewrite <- Zlt_Qlt. exact HD. }
    assert (Hlo : inject_Z (- D) <= inject_Z (2 * (Z.of_N c * D - Z.pos m * 100))).
    { rewrite <- Zle_Qle. lia. }
    assert (Hhi : inject_Z (2 * (Z.of_N c * D - Z.pos m * 100)) <= inject_Z D).
    { rewrite <- Zle_Qle. lia. }
    rewrite inject_Z_opp in Hlo. unfold Z.sub in Hlo, Hhi.
    rewrite inject_Z_mult, inject_Z_plus, inject_Z_opp, !inject_Z_mult
      in Hlo, Hhi.
    change (inject_Z 2) with 2 in *. change (inject_Z 100) with 100 in *.
    assert (Hy : inject_Z (Z.pos m) * / inject_Z D * inject_Z D
                 == inject_Z (Z.pos m)) by (field; lra).
    generalize dependent (inject_Z (Z.pos m) * / inject_Z D).
    generalize dependent (inject_Z (Z.of_N c)).
    generalize dependent (inject_Z (Z.pos m)).
    generalize dependent (inject_Z D).
    intros d Hd mq cq Hlo Hhi y Hy.
    assert (Hcq : cq / 100 == cq * (1 # 100)) by field.
    rewrite Hcq. split; nra.
Qed.

Local Close Scope Q_scope.

Local Open Scope Q_scope.

(** X16.  What [f"${x:,.2f}"] shows for a binary64 value, by the cases of
    the value.  A finite value [m * 2 ^ e] of either sign reads back, with
    the separators removed, as the same sign and a whole number of
    hundredths within half a hundredth of [m * 2 ^ e]; a zero reads back
    as zero with its sign; an infinity and a NaN are shown by name. *)
Theorem format_currency_reads_back (x : float) :
  match Prim2SF x with
  | S754_finite s m e =>
      exists cents : N,
        parse_currency (format_currency x) = Some (s, cents)
        /\ - (1 # 200)
           <= inject_Z (Z.of_N cents) / 100 - inject_Z (Zpos m) * 2 ^ e
           <= 1 # 200
  | S754_zero s => parse_currency (format_currency x) = Some (s, 0%N)
  | S754_infinity s =>
      format_currency x = (if s then "$-inf" else "$inf")%string
  | S754_nan => format_currency x = "$nan"%string
  end.
Proof.
  unfold format_currency. destruct (Prim2SF x) as [s|s| |s m e].
  - cbn [format_2f]. apply fixed_2_parses.
  - destruct s; reflexivity.
  - reflexivity.
  - cbn [format_2f]. exists (cents_of_finite m e).
    split; [apply fixed_2_parses | apply cents_of_finite_close].
Qed.

(** X17.  A finite binary64 value below half a cent in magnitude is shown
    as zero dollars, with its sign. *)
Theorem below_half_a_cent_shows_zero
    (x : float) (s : bool) (m : positive) (e : Z) :
  Prim2SF x = S754_finite s m e ->
  inject_Z (Zpos m) * 2 ^ e < 1 # 200 ->
  format_currency x = (if s then "$-0.00" else "$0.00")%string.
Proof.
  intros Hx Hsmall. unfold format_currency. rewrite Hx. cbn [format_2f].
  pose proof (cents_of_finite_close m e) as [_ Hhi].
  assert (Hc : cents_of_finite m e = 0%N).
  { assert (Hlt : inject_Z (Z.of_N (cents_of_finite m e)) < inject_Z 1).
    { change (inject_Z 1) with 1.
      assert (Hdiv : inject_Z (Z.of_N (cents_of_finite m e)) / 100
                     == inject_Z (Z.of_N (cents_of_finite m e)) * (1 # 100))
        by field.
      rewrite Hdiv in Hhi. lra. }
    rewrite <- Zlt_Qlt in Hlt. lia. }
  rewrite Hc. destruct s; reflexivity.
Qed.

Lemma below_half_a_cent_shows_zero_witness :
  exists (s : bool) (m : positive) (e : Z),
    Prim2SF 1.2346390576567501e-10 = S754_finite s m e
    /\ inject_Z (Zpos m) * 2 ^ e < 1 # 200
    /\ format_currency 1.2346390576567501e-10 = "$0.00"%string.
Proof.
  exists false, 4776278511058944%positive, (-85)%Z.
  assert (Hx : Prim2SF 1.2346390576567501e-10
               = S754_finite false 4776278511058944 (-85))
    by (vm_compute; reflexivity).
  assert (Hsmall : inject_Z (Zpos 4776278511058944) * 2 ^ (-85) < 1 # 200)
    by (vm_compute; reflexivity).
  split; [exact Hx | split; [exact Hsmall |]].
  exact (below_half_a_cent_shows_zero _ _ _ _ Hx Hsmall).
Defined.

(** Displayed amounts of the design's scenarios, and the rounding of
    binary values that are not decimal ties. *)
Example format_currency_examples :
  format_currency 1896.204070478896 = "$1,896.20"%string
  /\ format_currency 300000 = "$300,000.00"%string
  /\ format_currency 2.675 = "$2.67"%string
  /\ format_currency 0.125 = "$0.12"%string
  /\ format_currency 0.375 = "$0.38"%string
  /\ format_currency (-1234.5) = "$-1,234.50"%string
  /\ format_currency (-0.001) = "$-0.00"%string.
Proof.
  repeat split; vm_compute; reflexivity.
Qed.

(** The binary64 schedule of 100000 at 0 percent over 10 years ends with a
    positive residual, and the table shows it as zero. *)
Example residual_is_displayed_as_zero :
  exists s,
    create_amortization_schedule 100000%float 0%float 10 = Ok s
    /\ last (Remaining_Balance
               (displayed_rows "Last 12 Months"
                  (display_schedule format_currency s))) EmptyString
       = "$0.00"%string.
Proof.
  eexists. split; vm_compute; reflexivity.
Qed.

(** ** The balance as a present value *)

Lemma balance_is_present_value (M r P : Q) (N : nat) :
  0 <= r -> (0 < N)%nat ->
  (r == 0 -> M == P / inject_Z (Z.of_nat N)) ->
  (~ r == 0 ->
   1 < (1 + r) ^ Z.of_nat N
   /\ M == P * (r * (1 + r) ^ Z.of_nat N) / ((1 + r) ^ Z.of_nat N - 1)) ->
  forall k : nat,
    (k <= N)%nat ->
    balance_after M r P k == M * annuity_factor (1 + r) (N - k).
Proof.
  intros Hr HN Hz Hp k. induction k as [|k IH]; intros Hk.
  - rewrite Nat.sub_0_r.
    rewrite (payment_times_annuity_factor M r P N Hr HN Hz Hp). reflexivity.
  - rewrite exact_balance_succ, IH by lia.
    replace (N - k)%nat with (S (N - S k)) by lia.
    cbn [annuity_factor]. field. lra.
Qed.

(** X18.  In exact arithmetic, for a valid loan, the balance recorded after
    each payment is the present value of the payments still to come: the
    monthly payment times [1/q + ... + 1/q^j] for the [j] remaining
    periods, with [q = 1 + annual_rate / 100 / 12]. *)
Theorem recorded_balance_is_present_value
    (principal annual_rate : Q) (years : Z) :
  0 < principal -> 0 <= annual_rate -> (1 <= years)%Z ->
  exists monthly_payment s,
    calculate_monthly_payment principal annual_rate years = Ok monthly_payment
    /\ create_amortization_schedule principal annual_rate years = Ok s
    /\ forall i : nat,
         (i < length (Payment_Number s))%nat ->
         nth i (Remaining_Balance s) 0
         == monthly_payment
            * annuity_factor (1 + annual_rate / 100 / 12)
                             (length (Payment_Number s) - S i).
Proof.
  intros HP Ha Hy.
  destruct (valid_schedule_exact principal annual_rate years Ha Hy)
    as (M & r & s & HM & _ & Hreq & Hr & Hs & -> & Hz & Hp).
  pose proof (num_periods_pos years Hy) as HN.
  exists M. eexists. split; [exact HM | split; [exact Hs |]].
  rewrite Payment_Number_length. intros i Hi.
  rewrite Remaining_Balance_nth by exact Hi.
  assert (Hq : 1 + annual_rate / 100 / 12 == 1 + r) by (rewrite Hreq; reflexivity).
  rewrite (annuity_factor_comp _ _ _ Hq).
  pose proof (balance_is_present_value M r principal _ Hr HN Hz Hp (S i)
                ltac:(lia)) as Hb.
  assert (Hnn : 0 <= balance_after M r principal (S i)).
  { destruct (Nat.eq_dec (S i) (num_periods years)) as [E|E].
    - rewrite E, (balance_final M r principal _ Hr HN Hz Hp). lra.
    - apply Qlt_le_weak.
      apply (balance_pos M r principal _ HP Hr HN Hz Hp). lia. }
  rewrite (max0_of_nonneg _ Hnn). exact Hb.
Qed.

Lemma recorded_balance_is_present_value_witness :
  0 < 1000 /\ 0 <= 6 /\ (1 <= 1)%Z
  /\ exists monthly_payment s,
       calculate_monthly_payment 1000 6 1 = Ok monthly_payment
       /\ create_amortization_schedule 1000 6 1 = Ok s
       /\ forall i : nat,
            (i < length (Payment_Number s))%nat ->
            nth i (Remaining_Balance s) 0
            == monthly_payment
               * annuity_factor (1 + 6 / 100 / 12)
                                (length (Payment_Number s) - S i).
Proof.
  assert (HP : 0 < 1000) by reflexivity.
  assert (Ha : 0 <= 6) by (unfold Qle; simpl; lia).
  assert (Hy : (1 <= 1)%Z) by lia.
  split; [exact HP | split; [exact Ha | split; [exact Hy |]]].
  exact (recorded_balance_is_present_value 1000 6 1 HP Ha Hy).
Defined.

Local Close Scope Q_scope.

(** ** The recorded balance in binary64 *)

Lemma float_max0_not_negative (x : float) :
  PrimFloat.ltb (max0 x) 0 = false /\ PrimFloat.eqb (max0 x) (max0 x) = true.
Proof.
  unfold max0. cbn [gt of_int float_Number].
  change (float_of_int 0) with 0%float.
  destruct (PrimFloat.ltb 0 x) eqn:E; [| split; reflexivity].
  rewrite ltb_spec in E. rewrite ltb_spec, eqb_spec.
  change (Prim2SF 0) with (S754_zero false) in *.
  destruct (Prim2SF x) as [s|s| |s m e]; try destruct s; try discriminate E.
  - split; reflexivity.
  - split; [reflexivity |]. cbn. rewrite Z.compare_refl, Pos.compare_refl.
    reflexivity.
Qed.

(** X19.  In binary64, for every input on which
    [create_amortization_schedule] returns (infinities and NaN included),
    no recorded remaining balance is negative and none is a NaN: a running
    balance that is negative, or not a number, is recorded as zero. *)
Theorem binary64_recorded_balance_never_negative
    (principal annual_rate : float) (years : Z) (s : DataFrame float) :
  create_amortization_schedule principal annual_rate years = Ok s ->
  Forall (fun balance =>
            PrimFloat.ltb balance 0 = false
            /\ PrimFloat.eqb balance balance = true)
         (Remaining_Balance s).
Proof.
  intros Hs.
  destruct (create_amortization_schedule_ok _ _ _ _ Hs)
    as (M & r & _ & _ & ->).
  cbn [frame_of Remaining_Balance]. rewrite remaining_balances_spec.
  apply Forall_forall. intros x Hx. apply in_map_iff in Hx.
  destruct Hx as (k & <- & _). apply float_max0_not_negative.
Qed.

Lemma binary64_recorded_balance_never_negative_witness :
  exists s,
    create_amortization_schedule 1000%float 0%float 1 = Ok s
    /\ Forall (fun balance =>
                 PrimFloat.ltb balance 0 = false
                 /\ PrimFloat.eqb balance balance = true)
              (Remaining_Balance s).
Proof.
  eexists. split; [vm_compute; reflexivity |].
  apply (binary64_recorded_balance_never_negative 1000 0 1).
  vm_compute. reflexivity.
Defined.

Local Open Scope Q_scope.
